(** * RTS binary format v1: the decoder of [golang/rts.go] and [javascript/rts.js]

    A shallow embedding of the two decoders, and of the TypeScript variant
    [typescript/rts.ts], and the properties of the format description that
    they satisfy.

    - bytes are [Byte.byte]; unsigned and signed machine integers are [Z]
      with the wrap-around of every shift and addition written out;
    - [float64] values are the kernel's binary64 floats ([PrimFloat.float]),
      so a division by [100.0] or [10.0] rounds exactly as the program's does;
    - a parser method is a function of the parser state (the bytes that the
      source still holds) returning a value or an error, and the new state. *)

From stdpp Require Import base list strings pretty.
From Stdlib Require Import ZArith Lia Strings.Byte.
From Stdlib Require Import Floats.PrimFloat Floats.FloatOps Floats.SpecFloat Uint63.

Local Open Scope Z_scope.

(** ** Machine integers and floats *)

(** The value of a byte, [0 .. 255]. *)
Definition u8 (b : byte) : Z := Z.of_N (Byte.to_N b).

(** [buf[i]] of a byte slice, as an integer. Every slice indexed below was
    returned by a read of a fixed size, so the index is in range. *)
Definition at_ (buf : list byte) (i : nat) : Z := u8 (nth i buf Byte.x00).

(** Two's-complement wrap-around of a 64-bit signed integer. *)
Definition wrap64 (z : Z) : Z := (z + 2 ^ 63) mod 2 ^ 64 - 2 ^ 63.

(** [x << n], [x >> n] and [x + y] on [int64]. *)
Definition shl64 (x : Z) (n : Z) : Z := wrap64 (Z.shiftl x n).
Definition sar64 (x : Z) (n : Z) : Z := Z.shiftr x n.
Definition add64 (x y : Z) : Z := wrap64 (x + y).

(** [x << n] on [uint16] and [uint32]. *)
Definition shl16 (x : Z) (n : Z) : Z := Z.shiftl x n mod 2 ^ 16.
Definition shl32 (x : Z) (n : Z) : Z := Z.shiftl x n mod 2 ^ 32.

(** Conversion of an integer to [float64]: round to nearest, exact below
    [2^53]. *)
Definition float64_of_Z (z : Z) : float :=
  if z <? 0 then PrimFloat.opp (PrimFloat.of_uint63 (Uint63.of_Z (- z)))
  else PrimFloat.of_uint63 (Uint63.of_Z z).

(** Go's [math.Round]: the nearest integer, rounding half away from zero;
    zeros, infinities and NaN are returned as they are. A finite non-zero
    float is [(-1)^s * m * 2^e]; when [e < 0] its integer part is
    [m / 2^(-e)] and its fraction is at least one half exactly when twice the
    remainder reaches [2^(-e)]. *)
Definition math_Round (x : float) : float :=
  match Prim2SF x with
  | S754_finite s m e =>
      if 0 <=? e then x
      else
        let d := 2 ^ (- e) in
        let q := Z.pos m / d in
        let r := Z.pos m mod d in
        let n := if d <=? 2 * r then q + 1 else q in
        if s then PrimFloat.opp (float64_of_Z n) else float64_of_Z n
  | _ => x
  end.

(** JavaScript's [Math.round]: the nearest integer, a tie going towards
    plus infinity; a negative value that rounds to zero gives [-0]. *)
Definition Math_round (x : float) : float :=
  match Prim2SF x with
  | S754_finite s m e =>
      if 0 <=? e then x
      else
        let d := 2 ^ (- e) in
        let q := Z.pos m / d in
        let r := Z.pos m mod d in
        if s then PrimFloat.opp (float64_of_Z (if d <? 2 * r then q + 1 else q))
        else float64_of_Z (if d <=? 2 * r then q + 1 else q)
  | _ => x
  end.

(** ** Methods that read from a source and may fail *)

(** The outcome of a call: a value, or the error returned (Go) or the
    exception thrown (JavaScript). *)
Inductive result (E A : Type) : Type :=
  | Ok (a : A)
  | Err (e : E).
Arguments Ok {E A} a.
Arguments Err {E A} e.

(** A method of a parser object with state [St]: it returns an outcome and
    leaves the object in a new state. *)
Definition exec (St E A : Type) : Type := St -> result E A * St.

Definition ret {St E A : Type} (a : A) : exec St E A := fun s => (Ok a, s).

Definition fail {St E A : Type} (e : E) : exec St E A := fun s => (Err e, s).

(** Sequencing: the first error ends the computation. In Go this is
    [x, err := m(); if err != nil { return ..., err }], in JavaScript the
    propagation of an exception. *)
Definition bind {St E A B : Type} (m : exec St E A) (f : A -> exec St E B)
  : exec St E B :=
  fun s =>
    match m s with
    | (Ok a, s') => f a s'
    | (Err e, s') => (Err e, s')
    end.

Notation "'do' x <- m ; k" := (bind m (fun x => k))
  (at level 10, x name, m at level 100, k at level 200).
Notation "'do' ' pat <- m ; k" := (bind m (fun pat => k))
  (at level 10, pat pattern, m at level 100, k at level 200).

(** [for (i = from; i < from + k; i++) { body }]: [k] iterations from index
    [i] over the variables [X] that the body updates, each iteration able
    to fail. *)
Fixpoint forRange {St E X : Type} (k : nat) (i : nat)
    (body : nat -> X -> exec St E X) (x : X) : exec St E X :=
  match k with
  | O => ret x
  | S k' => do x' <- body i x ; forRange k' (S i) body x'
  end.

(** ** The Go decoder, [golang/rts.go] *)

Module Go.

Definition SupportedVersion : Z := 1.
Definition Epoch : Z := 1767225600000.
Definition VarIntScale : float := 100%float.
Definition IntensityOffset : float := 3%float.

Record RTSHeader := mkRTSHeader {
  Version : Z;        (* uint8 *)
  TimestampMs : Z;    (* int64 *)
  StationCount : Z;   (* uint16 *)
  IntCount : Z;       (* uint16 *)
  Reserved : Z        (* uint16 *)
}.

Record Station := mkStation {
  ID : Z;             (* uint32 *)
  PGA : float;
  PGV : float;
  Intensity : float;
  IsAlert : bool
}.

(** The fields [Code] and [Intensity] of the struct [AreaIntensity]. *)
Record AreaIntensity := mkAreaIntensity {
  Code : Z;           (* uint16 *)
  AreaIntensity_Intensity : float
}.

Record RTSData := mkRTSData {
  Header : RTSHeader;
  Stations : list Station;
  AreaIntensities : list AreaIntensity
}.

(** The errors that the decoder returns: the two sentinels of package [io]
    and the message built by [fmt.Errorf]. *)
Inductive error :=
  | EOF
  | ErrUnexpectedEOF
  | Errorf (msg : string).

(** The parser owns its reader; the reader is the sequence of bytes that the
    source has not delivered yet. *)
Record RTSParser := mkRTSParser { reader : list byte }.

Definition NewRTSParser (r : list byte) : RTSParser := {| reader := r |}.

(** A method of the parser returning a value and an error. *)
Definition M (A : Type) : Type := exec RTSParser error A.

(** [io.ReadFull(p.reader, buf)] with [len(buf) = size]: the next [size]
    bytes; [io.EOF] when the source has no byte left, [io.ErrUnexpectedEOF]
    when it ends after some but fewer than [size] bytes. In both failures the
    source is drained. *)
Definition io_ReadFull (size : nat) : M (list byte) :=
  fun p =>
    let r := reader p in
    if (size <=? length r)%nat then (Ok (take size r), NewRTSParser (drop size r))
    else
      match r with
      | [] => (Err EOF, NewRTSParser [])
      | _ :: _ => (Err ErrUnexpectedEOF, NewRTSParser [])
      end.

Definition readExact (size : nat) : M (list byte) :=
  io_ReadFull size.

Definition readU8 : M Z :=
  do buf <- readExact 1 ;
  ret (at_ buf 0).

(** [binary.LittleEndian.Uint16] *)
Definition Uint16 (b : list byte) : Z :=
  Z.lor (at_ b 0) (shl16 (at_ b 1) 8).

(** [binary.LittleEndian.Uint32] *)
Definition Uint32 (b : list byte) : Z :=
  Z.lor (Z.lor (Z.lor (at_ b 0) (shl32 (at_ b 1) 8)) (shl32 (at_ b 2) 16))
        (shl32 (at_ b 3) 24).

Definition readU16 : M Z :=
  do buf <- readExact 2 ;
  ret (Uint16 buf).

Definition readU32 : M Z :=
  do buf <- readExact 4 ;
  ret (Uint32 buf).

Definition readTime40 : M Z :=
  do buf <- readExact 5 ;
  let raw :=
    Z.lor (Z.lor (Z.lor (Z.lor (at_ buf 0) (shl64 (at_ buf 1) 8))
                        (shl64 (at_ buf 2) 16))
                 (shl64 (at_ buf 3) 24))
          (shl64 (at_ buf 4) 32) in
  let raw := sar64 (shl64 raw 24) 24 in
  ret (add64 Epoch raw).

Definition readVarInt : M float :=
  do marker <- readU8 ;
  do rawVal <-
    (if marker <=? 0xFC then ret marker
     else if marker =? 0xFD then
       do val <- readU16 ;
       ret val
     else if marker =? 0xFE then
       do buf <- readExact 3 ;
       let val := Z.lor (Z.lor (at_ buf 0) (shl32 (at_ buf 1) 8))
                        (shl32 (at_ buf 2) 16) in
       ret val
     else ret 0) ;
  ret (float64_of_Z rawVal / VarIntScale)%float.

Definition readIntensityAlert : M (float * bool) :=
  do raw <- readU8 ;
  let val := (float64_of_Z (Z.land raw 0x7F) / 10 - IntensityOffset)%float in
  let intensity := (math_Round (val * 10) / 10)%float in
  let isAlert := negb (Z.land raw 0x80 =? 0) in
  ret (intensity, isAlert).

(** The body of the station loop up to the construction of the record. *)
Definition readStation : M Station :=
  do id <- readU32 ;
  do pga <- readVarInt ;
  do pgv <- readVarInt ;
  do '(intensity, isAlert) <- readIntensityAlert ;
  ret {| ID := id; PGA := pga; PGV := pgv; Intensity := intensity;
         IsAlert := isAlert |}.

(** The body of the area loop up to the construction of the record. *)
Definition readAreaIntensity : M AreaIntensity :=
  do code <- readU16 ;
  do rawI <- readU8 ;
  let val := (float64_of_Z rawI / 10 - IntensityOffset)%float in
  let intensity := (math_Round (val * 10) / 10)%float in
  ret {| Code := code; AreaIntensity_Intensity := intensity |}.

(** The zero values that [make] fills a fresh slice with. *)
Definition zeroStation : Station :=
  {| ID := 0; PGA := 0%float; PGV := 0%float; Intensity := 0%float;
     IsAlert := false |}.
Definition zeroAreaIntensity : AreaIntensity :=
  {| Code := 0; AreaIntensity_Intensity := 0%float |}.

(** [Parse] in the error monad: every [if err != nil { return nil, err }]
    is a bind. *)
Definition parseM : M RTSData :=
  do version <- readU8 ;
  if negb (version =? SupportedVersion) then
    fail (Errorf ("unsupported RTS version: " +:+ pretty version))
  else
    do timestampMs <- readTime40 ;
    do stationCount <- readU16 ;
    do intCount <- readU16 ;
    do reserved <- readU16 ;
    let header :=
      {| Version := version; TimestampMs := timestampMs;
         StationCount := stationCount; IntCount := intCount;
         Reserved := reserved |} in
    do stations <-
      forRange (Z.to_nat stationCount) 0
        (fun i stations => do st <- readStation ; ret (<[i := st]> stations))
        (replicate (Z.to_nat stationCount) zeroStation) ;
    do areaInts <-
      forRange (Z.to_nat intCount) 0
        (fun i areaInts => do a <- readAreaIntensity ; ret (<[i := a]> areaInts))
        (replicate (Z.to_nat intCount) zeroAreaIntensity) ;
    ret {| Header := header; Stations := stations;
           AreaIntensities := areaInts |}.

(** [Parse] returns a pair, a pointer to the document and an error: the
    document and [nil], or [nil] and the error. *)
Definition Parse (p : RTSParser) : (option RTSData * option error) * RTSParser :=
  match parseM p with
  | (Ok data, p') => ((Some data, None), p')
  | (Err err, p') => ((None, Some err), p')
  end.

End Go.

(** ** The Go decoder over a reader that delivers in pieces *)

(** [RTSParser] holds an [io.Reader], and a reader need not fill the buffer
    that [Read] is given: a file, a pipe or a connection delivers what it has.
    Here the reader is the sequence of pieces that the source will deliver,
    and the methods are those of [rts.go] again, over this reader. *)
Module Chunked.

Import Go.

Record RTSParser := mkRTSParser { reader : list (list byte) }.

Definition NewRTSParser (r : list (list byte)) : RTSParser := {| reader := r |}.

Definition M (A : Type) : Type := exec RTSParser error A.

(** [Read(buf)] with [len(buf) = size]: the next piece, or its first [size]
    bytes when it is longer, the rest of it staying in the source; [io.EOF]
    when no piece is left. *)
Definition Read (size : nat) (r : list (list byte))
  : (list byte * option error) * list (list byte) :=
  match r with
  | [] => (([], Some EOF), [])
  | c :: rest =>
      if (length c <=? size)%nat then ((c, None), rest)
      else ((take size c, None), drop size c :: rest)
  end.

(** The loop of [io.ReadAtLeast], on which [io.ReadFull] is built: with
    [got] read and [need] bytes missing, [Read] is called for the missing
    bytes until none is missing or an error comes; [io.EOF] after some bytes
    becomes [io.ErrUnexpectedEOF]. Each call takes a whole piece or ends the
    loop. *)
Fixpoint io_ReadAtLeast (r : list (list byte)) (got : list byte) (need : nat)
  {struct r} : result error (list byte) * list (list byte) :=
  match need with
  | O => (Ok got, r)
  | S _ =>
      match r with
      | [] =>
          (Err match got with [] => EOF | _ :: _ => ErrUnexpectedEOF end, [])
      | c :: rest =>
          if (length c <=? need)%nat then
            io_ReadAtLeast rest (got ++ c) (need - length c)
          else (Ok (got ++ take need c), drop need c :: rest)
      end
  end.

(** [io.ReadFull(p.reader, buf)] with [len(buf) = size]. *)
Definition io_ReadFull (size : nat) : M (list byte) :=
  fun p =>
    let '(res, r) := io_ReadAtLeast (reader p) [] size in
    (res, NewRTSParser r).

Definition readExact (size : nat) : M (list byte) :=
  io_ReadFull size.

Definition readU8 : M Z :=
  do buf <- readExact 1 ;
  ret (at_ buf 0).

Definition readU16 : M Z :=
  do buf <- readExact 2 ;
  ret (Uint16 buf).

Definition readU32 : M Z :=
  do buf <- readExact 4 ;
  ret (Uint32 buf).

Definition readTime40 : M Z :=
  do buf <- readExact 5 ;
  let raw :=
    Z.lor (Z.lor (Z.lor (Z.lor (at_ buf 0) (shl64 (at_ buf 1) 8))
                        (shl64 (at_ buf 2) 16))
                 (shl64 (at_ buf 3) 24))
          (shl64 (at_ buf 4) 32) in
  let raw := sar64 (shl64 raw 24) 24 in
  ret (add64 Epoch raw).

Definition readVarInt : M float :=
  do marker <- readU8 ;
  do rawVal <-
    (if marker <=? 0xFC then ret marker
     else if marker =? 0xFD then
       do val <- readU16 ;
       ret val
     else if marker =? 0xFE then
       do buf <- readExact 3 ;
       let val := Z.lor (Z.lor (at_ buf 0) (shl32 (at_ buf 1) 8))
                        (shl32 (at_ buf 2) 16) in
       ret val
     else ret 0) ;
  ret (float64_of_Z rawVal / VarIntScale)%float.

Definition readIntensityAlert : M (float * bool) :=
  do raw <- readU8 ;
  let val := (float64_of_Z (Z.land raw 0x7F) / 10 - IntensityOffset)%float in
  let intensity := (math_Round (val * 10) / 10)%float in
  let isAlert := negb (Z.land raw 0x80 =? 0) in
  ret (intensity, isAlert).

Definition readStation : M Station :=
  do id <- readU32 ;
  do pga <- readVarInt ;
  do pgv <- readVarInt ;
  do '(intensity, isAlert) <- readIntensityAlert ;
  ret {| ID := id; PGA := pga; PGV := pgv; Intensity := intensity;
         IsAlert := isAlert |}.

Definition readAreaIntensity : M AreaIntensity :=
  do code <- readU16 ;
  do rawI <- readU8 ;
  let val := (float64_of_Z rawI / 10 - IntensityOffset)%float in
  let intensity := (math_Round (val * 10) / 10)%float in
  ret {| Code := code; AreaIntensity_Intensity := intensity |}.

Definition parseM : M RTSData :=
  do version <- readU8 ;
  if negb (version =? SupportedVersion) then
    fail (Errorf ("unsupported RTS version: " +:+ pretty version))
  else
    do timestampMs <- readTime40 ;
    do stationCount <- readU16 ;
    do intCount <- readU16 ;
    do reserved <- readU16 ;
    let header :=
      {| Version := version; TimestampMs := timestampMs;
         StationCount := stationCount; IntCount := intCount;
         Reserved := reserved |} in
    do stations <-
      forRange (Z.to_nat stationCount) 0
        (fun i stations => do st <- readStation ; ret (<[i := st]> stations))
        (replicate (Z.to_nat stationCount) zeroStation) ;
    do areaInts <-
      forRange (Z.to_nat intCount) 0
        (fun i areaInts => do a <- readAreaIntensity ; ret (<[i := a]> areaInts))
        (replicate (Z.to_nat intCount) zeroAreaIntensity) ;
    ret {| Header := header; Stations := stations;
           AreaIntensities := areaInts |}.

Definition Parse (p : RTSParser) : (option RTSData * option error) * RTSParser :=
  match parseM p with
  | (Ok data, p') => ((Some data, None), p')
  | (Err err, p') => ((None, Some err), p')
  end.

End Chunked.

(** ** The JavaScript decoder, [javascript/rts.js] *)

(** Numbers that hold integers (bytes, counts, offsets) are [Z]: every one
    of them is below [2^53], where a JavaScript number is exact. The bit
    operators work on 32-bit signed integers. *)
Definition wrap32 (z : Z) : Z := (z + 2 ^ 31) mod 2 ^ 32 - 2 ^ 31.
Definition js_shl (x n : Z) : Z := wrap32 (Z.shiftl (wrap32 x) (n mod 32)).
Definition js_or (x y : Z) : Z := Z.lor (wrap32 x) (wrap32 y).
Definition js_and (x y : Z) : Z := Z.land (wrap32 x) (wrap32 y).

Module JS.

Definition SUPPORTED_VERSION : Z := 1.
Definition EPOCH_2026_MS : Z := 1767225600000.
Definition VARINT_SCALE : float := 100%float.
Definition INTENSITY_OFFSET : float := 3%float.

(** The objects that [parse] builds. *)
Record RTSHeader := mkRTSHeader {
  version : Z;
  timestampMs : Z;
  stationCount : Z;
  intCount : Z;
  reserved : Z
}.

Record Station := mkStation {
  id : Z;
  pga : float;
  pgv : float;
  intensity : float;
  isAlert : bool
}.

(** The properties [code] and [intensity] of an area record. *)
Record AreaIntensity := mkAreaIntensity {
  code : Z;
  areaIntensity_intensity : float
}.

Record RTSData := mkRTSData {
  header : RTSHeader;
  stations : list Station;
  areaIntensities : list AreaIntensity
}.

(** The exceptions thrown, each with its message. *)
Inductive exn :=
  | Error (message : string)
  | TypeError (message : string).

(** The argument of the constructor: a typed array or an array buffer, each
    seen as the bytes it gives access to, or any other value. *)
Inductive value :=
  | Uint8Array (bytes : list byte)
  | ArrayBuffer (bytes : list byte)
  | other.

(** The properties [view], a [DataView] seen as the bytes it ranges over,
    and [offset]. *)
Record RTSParser := mkRTSParser { view : list byte; offset : nat }.

Definition constructor (buffer : value) : result exn RTSParser :=
  match buffer with
  | Uint8Array bytes => Ok {| view := bytes; offset := 0 |}
  | ArrayBuffer bytes => Ok {| view := bytes; offset := 0 |}
  | other => Err (TypeError "Input must be ArrayBuffer or Uint8Array")
  end.

Definition M (A : Type) : Type := exec RTSParser exn A.

(** Reading a property of [this], and [this.offset += n]. *)
Definition this {A : Type} (f : RTSParser -> A) : M A := fun s => (Ok (f s), s).
Definition advance (n : nat) : M unit :=
  fun s => (Ok tt, {| view := view s; offset := offset s + n |}).

(** [DataView]: [byteLength], [getUint8], and the little-endian
    [getUint16(_, true)] and [getUint32(_, true)]. *)
Definition byteLength (v : list byte) : nat := length v.
Definition getUint8 (v : list byte) (i : nat) : Z := u8 (nth i v Byte.x00).
Definition getUint16 (v : list byte) (i : nat) : Z :=
  getUint8 v i + 2 ^ 8 * getUint8 v (i + 1).
Definition getUint32 (v : list byte) (i : nat) : Z :=
  getUint8 v i + 2 ^ 8 * getUint8 v (i + 1) + 2 ^ 16 * getUint8 v (i + 2)
  + 2 ^ 24 * getUint8 v (i + 3).

Definition _checkBounds (size : nat) : M unit :=
  fun s =>
    if (byteLength (view s) <? offset s + size)%nat then
      (Err (Error ("Unexpected EOF: expected " +:+ pretty size +:+ " bytes")), s)
    else (Ok tt, s).

Definition _readU8 : M Z :=
  do _ <- _checkBounds 1 ;
  do val <- this (fun s => getUint8 (view s) (offset s)) ;
  do _ <- advance 1 ;
  ret val.

Definition _readU16 : M Z :=
  do _ <- _checkBounds 2 ;
  do val <- this (fun s => getUint16 (view s) (offset s)) ;
  do _ <- advance 2 ;
  ret val.

Definition _readU32 : M Z :=
  do _ <- _checkBounds 4 ;
  do val <- this (fun s => getUint32 (view s) (offset s)) ;
  do _ <- advance 4 ;
  ret val.

(** The arithmetic is on [BigInt], exact; the sum converted by [Number] is
    below [2^53], so the conversion is exact as well. *)
Definition _readTime40 : M Z :=
  do _ <- _checkBounds 5 ;
  do lo <- this (fun s => getUint32 (view s) (offset s)) ;
  do hi <- this (fun s => getUint8 (view s) (offset s + 4)) ;
  do _ <- advance 5 ;
  let rawOffset := Z.lor (Z.shiftl hi 32) lo in
  let rawOffset :=
    if negb (Z.land rawOffset (Z.shiftl 1 39) =? 0) then rawOffset - Z.shiftl 1 40
    else rawOffset in
  ret (EPOCH_2026_MS + rawOffset).

(** [rawVal] starts as 0 and keeps that value for the marker [0xff]. *)
Definition _readVarInt : M float :=
  do marker <- _readU8 ;
  do rawVal <-
    (if marker <=? 0xfc then ret marker
     else if marker =? 0xfd then _readU16
     else if marker =? 0xfe then
       do _ <- _checkBounds 3 ;
       do b0 <- this (fun s => getUint8 (view s) (offset s)) ;
       do b1 <- this (fun s => getUint8 (view s) (offset s + 1)) ;
       do b2 <- this (fun s => getUint8 (view s) (offset s + 2)) ;
       do _ <- advance 3 ;
       ret (js_or (js_or b0 (js_shl b1 8)) (js_shl b2 16))
     else ret 0) ;
  ret (float64_of_Z rawVal / VARINT_SCALE)%float.

Definition _readIntensityAlert : M (float * bool) :=
  do raw <- _readU8 ;
  let intensity := (float64_of_Z (js_and raw 0x7f) / 10 - INTENSITY_OFFSET)%float in
  let intensity := (Math_round (intensity * 10) / 10)%float in
  let isAlert := negb (js_and raw 0x80 =? 0) in
  ret (intensity, isAlert).

Definition parse : M RTSData :=
  do version <- _readU8 ;
  if negb (version =? SUPPORTED_VERSION) then
    fail (Error ("Unsupported RTS version: " +:+ pretty version))
  else
    do timestampMs <- _readTime40 ;
    do stationCount <- _readU16 ;
    do intCount <- _readU16 ;
    do reserved <- _readU16 ;
    let header :=
      {| version := version; timestampMs := timestampMs;
         stationCount := stationCount; intCount := intCount;
         reserved := reserved |} in
    do stations <-
      forRange (Z.to_nat (JS.stationCount header)) 0
        (fun i stations =>
           do id <- _readU32 ;
           do pga <- _readVarInt ;
           do pgv <- _readVarInt ;
           do '(intensity, isAlert) <- _readIntensityAlert ;
           ret (stations ++ [ {| id := id; pga := pga; pgv := pgv;
                                 intensity := intensity; isAlert := isAlert |} ]))
        [] ;
    do areaIntensities <-
      forRange (Z.to_nat (JS.intCount header)) 0
        (fun i areaIntensities =>
           do code <- _readU16 ;
           do rawI <- _readU8 ;
           let intensity := (float64_of_Z rawI / 10 - INTENSITY_OFFSET)%float in
           let intensity := (Math_round (intensity * 10) / 10)%float in
           ret (areaIntensities
                  ++ [ {| code := code; areaIntensity_intensity := intensity |} ]))
        [] ;
    ret {| header := header; stations := stations;
           areaIntensities := areaIntensities |}.

End JS.

(** ** The TypeScript decoder, [typescript/rts.ts] *)

(** The interfaces [RTSHeader], [Station], [AreaIntensity] and [RTSData] and
    the properties [view] and [offset] of the class have the shape of the
    JavaScript objects above, and the [DataView] is the same: the records,
    the parser state and the accessors of [JS] are used for them. *)
Module TS.

Definition SUPPORTED_VERSION : Z := 1.
Definition EPOCH : Z := 1767225600000.
Definition VARINT_SCALE : float := 100%float.
Definition INTENSITY_OFFSET : float := 3%float.

Definition M (A : Type) : Type := exec JS.RTSParser JS.exn A.

Definition constructor (buffer : JS.value) : result JS.exn JS.RTSParser :=
  match buffer with
  | JS.Uint8Array bytes => Ok {| JS.view := bytes; JS.offset := 0 |}
  | JS.ArrayBuffer bytes => Ok {| JS.view := bytes; JS.offset := 0 |}
  | JS.other => Err (JS.TypeError "Input must be ArrayBuffer or Uint8Array")
  end.

Definition checkBounds (size : nat) : M unit :=
  fun s =>
    if (JS.byteLength (JS.view s) <? JS.offset s + size)%nat then
      (Err (JS.Error
              ("Unexpected EOF: expected " +:+ pretty size +:+ " bytes, but only "
               +:+ pretty (Z.of_nat (JS.byteLength (JS.view s))
                           - Z.of_nat (JS.offset s))
               +:+ " left.")),
       s)
    else (Ok tt, s).

Definition readU8 : M Z :=
  do _ <- checkBounds 1 ;
  do val <- JS.this (fun s => JS.getUint8 (JS.view s) (JS.offset s)) ;
  do _ <- JS.advance 1 ;
  ret val.

Definition readU16 : M Z :=
  do _ <- checkBounds 2 ;
  do val <- JS.this (fun s => JS.getUint16 (JS.view s) (JS.offset s)) ;
  do _ <- JS.advance 2 ;
  ret val.

Definition readU32 : M Z :=
  do _ <- checkBounds 4 ;
  do val <- JS.this (fun s => JS.getUint32 (JS.view s) (JS.offset s)) ;
  do _ <- JS.advance 4 ;
  ret val.

Definition readTime40 : M Z :=
  do _ <- checkBounds 5 ;
  do lo <- JS.this (fun s => JS.getUint32 (JS.view s) (JS.offset s)) ;
  do hi <- JS.this (fun s => JS.getUint8 (JS.view s) (JS.offset s + 4)) ;
  do _ <- JS.advance 5 ;
  let rawOffset := Z.lor (Z.shiftl hi 32) lo in
  let rawOffset :=
    if negb (Z.land rawOffset (Z.shiftl 1 39) =? 0) then rawOffset - Z.shiftl 1 40
    else rawOffset in
  ret (EPOCH + rawOffset).

Definition readVarInt : M float :=
  do marker <- readU8 ;
  do rawVal <-
    (if marker <=? 0xfc then ret marker
     else if marker =? 0xfd then readU16
     else if marker =? 0xfe then
       do _ <- checkBounds 3 ;
       do b0 <- JS.this (fun s => JS.getUint8 (JS.view s) (JS.offset s)) ;
       do b1 <- JS.this (fun s => JS.getUint8 (JS.view s) (JS.offset s + 1)) ;
       do b2 <- JS.this (fun s => JS.getUint8 (JS.view s) (JS.offset s + 2)) ;
       do _ <- JS.advance 3 ;
       ret (js_or (js_or b0 (js_shl b1 8)) (js_shl b2 16))
     else ret 0) ;
  ret (float64_of_Z rawVal / VARINT_SCALE)%float.

Definition readIntensityAlert : M (float * bool) :=
  do raw <- readU8 ;
  let intensity := (float64_of_Z (js_and raw 0x7f) / 10 - INTENSITY_OFFSET)%float in
  let intensity := (Math_round (intensity * 10) / 10)%float in
  let isAlert := negb (js_and raw 0x80 =? 0) in
  ret (intensity, isAlert).

Definition parse : M JS.RTSData :=
  do version <- readU8 ;
  if negb (version =? SUPPORTED_VERSION) then
    fail (JS.Error ("Unsupported RTS version: " +:+ pretty version))
  else
    do timestampMs <- readTime40 ;
    do stationCount <- readU16 ;
    do intCount <- readU16 ;
    do reserved <- readU16 ;
    let header :=
      {| JS.version := version; JS.timestampMs := timestampMs;
         JS.stationCount := stationCount; JS.intCount := intCount;
         JS.reserved := reserved |} in
    do stations <-
      forRange (Z.to_nat (JS.stationCount header)) 0
        (fun i stations =>
           do id <- readU32 ;
           do pga <- readVarInt ;
           do pgv <- readVarInt ;
           do '(intensity, isAlert) <- readIntensityAlert ;
           ret (stations ++ [ {| JS.id := id; JS.pga := pga; JS.pgv := pgv;
                                 JS.intensity := intensity;
                                 JS.isAlert := isAlert |} ]))
        [] ;
    do areaIntensities <-
      forRange (Z.to_nat (JS.intCount header)) 0
        (fun i areaIntensities =>
           do code <- readU16 ;
           do rawI <- readU8 ;
           let intensity := (float64_of_Z rawI / 10 - INTENSITY_OFFSET)%float in
           let intensity := (Math_round (intensity * 10) / 10)%float in
           ret (areaIntensities
                  ++ [ {| JS.code := code;
                          JS.areaIntensity_intensity := intensity |} ]))
        [] ;
    ret {| JS.header := header; JS.stations := stations;
           JS.areaIntensities := areaIntensities |}.

End TS.

(** ** Vocabulary of the format description *)

(** The little-endian value of 2, 3, 4 and 5 bytes. *)
Definition le16 (b0 b1 : byte) : Z := u8 b0 + 2 ^ 8 * u8 b1.
Definition le24 (b0 b1 b2 : byte) : Z := le16 b0 b1 + 2 ^ 16 * u8 b2.
Definition le32 (b0 b1 b2 b3 : byte) : Z := le24 b0 b1 b2 + 2 ^ 24 * u8 b3.
Definition le40 (b0 b1 b2 b3 b4 : byte) : Z := le32 b0 b1 b2 b3 + 2 ^ 32 * u8 b4.

(** A 40-bit value read as two's complement: bit 39 is the sign. *)
Definition sext40 (u : Z) : Z := if Z.testbit u 39 then u - 2 ^ 40 else u.

(** The error of a read that finds too few bytes: [io.EOF] on an exhausted
    source, [io.ErrUnexpectedEOF] on one that ends inside the field. *)
Definition eof_error (remaining : list byte) : Go.error :=
  match remaining with
  | [] => Go.EOF
  | _ :: _ => Go.ErrUnexpectedEOF
  end.

(** The [float64] nearest to the decimal [k / 10]: a value with one decimal
    digit. *)
Definition tenths (k : Z) : float := (float64_of_Z k / 10)%float.

(** [round(x * 10) / 10], the rounding that both intensity decoders apply. *)
Definition round1 (x : float) : float := (math_Round (x * 10) / 10)%float.

(** [reads_in_order rd bs xs bs']: reading with [rd] again and again from
    the bytes [bs] yields the values [xs], first record first, and leaves
    [bs']: the k-th element of [xs] is the record in the k-th slot on the
    wire. *)
Inductive reads_in_order {A : Type} (rd : Go.M A)
  : list byte -> list A -> list byte -> Prop :=
  | rio_nil bs : reads_in_order rd bs [] bs
  | rio_cons bs x bs' xs bs'' :
      rd (Go.NewRTSParser bs) = (Ok x, Go.NewRTSParser bs') ->
      reads_in_order rd bs' xs bs'' ->
      reads_in_order rd bs (x :: xs) bs''.

(** A reader that succeeds on some input succeeds with the same value when
    more bytes follow that input, and leaves those bytes untouched. *)
Definition extends {A : Type} (m : Go.M A) : Prop :=
  forall p a q extra,
    m p = (Ok a, q) ->
    m (Go.NewRTSParser (Go.reader p ++ extra))
    = (Ok a, Go.NewRTSParser (Go.reader q ++ extra)).

(** A reader whose only failures are the two end-of-input errors, raised
    with the source drained. *)
Definition fails_at_end {A : Type} (m : Go.M A) : Prop :=
  forall p e q,
    m p = (Err e, q) ->
    (e = Go.EOF \/ e = Go.ErrUnexpectedEOF) /\ q = Go.NewRTSParser [].

(** A reader that, when it succeeds, has taken between [lo] and [hi] bytes
    off the front of the source. *)
Definition consumes {A : Type} (lo hi : nat) (m : Go.M A) : Prop :=
  forall p a q,
    m p = (Ok a, q) ->
    exists pre, Go.reader p = pre ++ Go.reader q
                /\ (lo <= length pre)%nat /\ (length pre <= hi)%nat.

(** The message of the version error for the version byte [v]. *)
Definition unsupported_version (v : byte) : Go.error :=
  Go.Errorf ("unsupported RTS version: " +:+ pretty (u8 v)).

(** The header that the twelve bytes after the version check spell out. *)
Definition header_of (t0 t1 t2 t3 t4 s0 s1 i0 i1 r0 r1 : byte) : Go.RTSHeader :=
  {| Go.Version := 1;
     Go.TimestampMs := Go.Epoch + sext40 (le40 t0 t1 t2 t3 t4);
     Go.StationCount := le16 s0 s1;
     Go.IntCount := le16 i0 i1;
     Go.Reserved := le16 r0 r1 |}.

(** A document whose two lists have the lengths that its header announces. *)
Definition complete (d : Go.RTSData) : Prop :=
  Z.of_nat (length (Go.Stations d)) = Go.StationCount (Go.Header d)
  /\ Z.of_nat (length (Go.AreaIntensities d)) = Go.IntCount (Go.Header d).

(** A capture with one station record (a two-byte VarInt form for [pga], a
    one-byte form for [pgv], the alert bit set) and one area record. *)
Definition sample_capture : list byte :=
  [ Byte.x01;
    Byte.x00; Byte.x00; Byte.x00; Byte.x00; Byte.x00;
    Byte.x01; Byte.x00;
    Byte.x01; Byte.x00;
    Byte.x07; Byte.x00;
    Byte.x01; Byte.x02; Byte.x03; Byte.x04;
    Byte.xfd; Byte.x96; Byte.x00;
    Byte.x32;
    Byte.xe4;
    Byte.x05; Byte.x00; Byte.x64 ].

(** The document that [sample_capture] holds. *)
Definition sample_document : Go.RTSData :=
  {| Go.Header :=
       {| Go.Version := 1; Go.TimestampMs := 1767225600000;
          Go.StationCount := 1; Go.IntCount := 1; Go.Reserved := 7 |};
     Go.Stations :=
       [ {| Go.ID := 67305985; Go.PGA := 1.5%float; Go.PGV := 0.5%float;
            Go.Intensity := 7%float; Go.IsAlert := true |} ];
     Go.AreaIntensities :=
       [ {| Go.Code := 5; Go.AreaIntensity_Intensity := 7%float |} ] |}.



(** The intensity that an area record with the raw byte [raw] decodes to. *)
Definition area_intensity_of (raw : byte) : option float :=
  match Go.readAreaIntensity (Go.NewRTSParser [Byte.x00; Byte.x00; raw]) with
  | (Ok a, _) => Some (Go.AreaIntensity_Intensity a)
  | (Err _, _) => None
  end.

(** The reading of "the decoded area intensity depends only on the low
    seven bits of the raw byte". *)
Definition area_intensity_low7_only : Prop :=
  forall raw1 raw2 : byte,
    Z.land (u8 raw1) 0x7F = Z.land (u8 raw2) 0x7F ->
    area_intensity_of raw1 = area_intensity_of raw2.

(** The integer that an integral float stands for (0 for any other float). *)
Definition Z_of_float (x : float) : Z :=
  match Prim2SF x with
  | S754_finite s m e =>
      let n := Z.shiftl (Z.pos m) e in if s then - n else n
  | _ => 0
  end.

(** *** The two decoders side by side *)

(** The Go document with the contents of a JavaScript document. *)
Definition to_Go_station (st : JS.Station) : Go.Station :=
  {| Go.ID := JS.id st; Go.PGA := JS.pga st; Go.PGV := JS.pgv st;
     Go.Intensity := JS.intensity st; Go.IsAlert := JS.isAlert st |}.

Definition to_Go_area (a : JS.AreaIntensity) : Go.AreaIntensity :=
  {| Go.Code := JS.code a;
     Go.AreaIntensity_Intensity := JS.areaIntensity_intensity a |}.

Definition to_Go (d : JS.RTSData) : Go.RTSData :=
  {| Go.Header :=
       {| Go.Version := JS.version (JS.header d);
          Go.TimestampMs := JS.timestampMs (JS.header d);
          Go.StationCount := JS.stationCount (JS.header d);
          Go.IntCount := JS.intCount (JS.header d);
          Go.Reserved := JS.reserved (JS.header d) |};
     Go.Stations := map to_Go_station (JS.stations d);
     Go.AreaIntensities := map to_Go_area (JS.areaIntensities d) |}.

(** The same failure in both decoders, with the JavaScript parser as the
    failure left it: the end of the input, where the JavaScript message names
    a size that the bytes from the offset on do not reach and the Go error is
    the one that [io.ReadFull] gives on those bytes; or the version, where
    both messages name it. *)
Definition same_failure (s : JS.RTSParser) (je : JS.exn) (ge : Go.error) : Prop :=
  (exists size : nat,
     (length (JS.view s) < JS.offset s + size)%nat
     /\ je = JS.Error ("Unexpected EOF: expected " +:+ pretty size +:+ " bytes")
     /\ ge = eof_error (drop (JS.offset s) (JS.view s)))
  \/ (exists v : Z,
        je = JS.Error ("Unsupported RTS version: " +:+ pretty v)
        /\ ge = Go.Errorf ("unsupported RTS version: " +:+ pretty v)).

(** [simulates R mj mg]: from a JavaScript parser at some offset of its view
    and a Go parser whose source holds the bytes from that offset on, either
    both methods succeed, with results related by [R], the view unchanged and
    the Go source holding the bytes from the new offset on, or both fail with
    the same failure. *)
Definition simulates {A B : Type} (R : A -> B -> Prop) (mj : JS.M A) (mg : Go.M B)
  : Prop :=
  forall s : JS.RTSParser,
    match mj s, mg (Go.NewRTSParser (drop (JS.offset s) (JS.view s))) with
    | (Ok a, s'), (Ok b, p') =>
        R a b /\ JS.view s' = JS.view s
        /\ Go.reader p' = drop (JS.offset s') (JS.view s)
    | (Err je, s'), (Err ge, _) => JS.view s' = JS.view s /\ same_failure s' je ge
    | _, _ => False
    end.

(** The same byte value on both sides. *)
Definition same_byte (a b : Z) : Prop := exists x : byte, a = u8 x /\ b = u8 x.

(** The station and area slices of the Go loops after [i] of [n]
    iterations, against the arrays that the JavaScript loops have pushed
    to: the first [i] slots hold the same records. *)
Definition filled {A B : Type} (f : A -> B) (n i : nat) (lj : list A) (lg : list B)
  : Prop :=
  length lg = n /\ length lj = i /\ take i lg = map f lj.

(** *** Further vocabulary *)

(** A reader whose result is decided by the bytes it takes: on success it
    has taken a prefix of the source, and on any source that starts with that
    prefix it returns the same value and leaves what follows the prefix. *)
Definition prefix_determined {A : Type} (m : Go.M A) : Prop :=
  forall p a q,
    m p = (Ok a, q) ->
    exists pre,
      Go.reader p = pre ++ Go.reader q
      /\ forall rest,
           m (Go.NewRTSParser (pre ++ rest)) = (Ok a, Go.NewRTSParser rest).

(** The document made of a header and two record lists. *)
Definition document_of (h : Go.RTSHeader) (sts : list Go.Station)
    (ars : list Go.AreaIntensity) : Go.RTSData :=
  {| Go.Header := h; Go.Stations := sts; Go.AreaIntensities := ars |}.

(** What every station record of a decoded document satisfies: an
    identifier of 32 bits, [pga] and [pgv] the hundredths of a 24-bit value,
    an intensity that is one of the tenths from -3.0 to 9.7. *)
Definition station_in_range (st : Go.Station) : Prop :=
  0 <= Go.ID st < 2 ^ 32
  /\ (exists n, 0 <= n < 2 ^ 24 /\ Go.PGA st = (float64_of_Z n / 100)%float)
  /\ (exists n, 0 <= n < 2 ^ 24 /\ Go.PGV st = (float64_of_Z n / 100)%float)
  /\ (exists k, -30 <= k <= 97 /\ Go.Intensity st = tenths k)
  /\ (-3 <=? Go.Intensity st)%float = true
  /\ (Go.Intensity st <=? tenths 97)%float = true.

(** What every area record of a decoded document satisfies: a code of 16
    bits and an intensity that is one of the tenths from -3.0 to 22.5. *)
Definition area_in_range (a : Go.AreaIntensity) : Prop :=
  0 <= Go.Code a < 2 ^ 16
  /\ (exists k, -30 <= k <= 225 /\ Go.AreaIntensity_Intensity a = tenths k)
  /\ (-3 <=? Go.AreaIntensity_Intensity a)%float = true
  /\ (Go.AreaIntensity_Intensity a <=? 22.5)%float = true.

(** A method of the JavaScript parser that keeps the cursor in order: it
    leaves the view as it is, never moves the offset backwards, and never
    moves an offset that was within the view past its end. *)
Definition keeps_bounds {A : Type} (m : JS.M A) : Prop :=
  forall s r s',
    m s = (r, s') ->
    JS.view s' = JS.view s
    /\ (JS.offset s <= JS.offset s')%nat
    /\ ((JS.offset s <= length (JS.view s))%nat ->
        (JS.offset s' <= length (JS.view s))%nat).

(** [stops_for_want_of m s s' size]: the run of [m] from [s] that stopped
    at the offset of [s'] stopped there for want of [size] bytes. On every
    view that has the same bytes before that offset, the run stops there with
    the message that names [size] when fewer than [size] bytes follow, and it
    gets past the [size] bytes when they are there. *)
Definition stops_for_want_of {A : Type} (m : JS.M A) (s s' : JS.RTSParser)
    (size : nat) : Prop :=
  forall v : list byte,
    take (JS.offset s') v = take (JS.offset s') (JS.view s) ->
    ((length v < JS.offset s' + size)%nat ->
     m {| JS.view := v; JS.offset := JS.offset s |}
     = (Err (JS.Error ("Unexpected EOF: expected " +:+ pretty size +:+ " bytes")),
        {| JS.view := v; JS.offset := JS.offset s' |}))
    /\ ((JS.offset s' + size <= length v)%nat ->
        (JS.offset s' + size
         <= JS.offset (snd (m {| JS.view := v; JS.offset := JS.offset s |})))%nat).

(** A method of the JavaScript parser that reads what it needs and no more:
    it leaves the view as it is and never moves the offset backwards; when it
    returns, it returns the same value on every view that has the same bytes
    before the offset it stops at; when it throws, the exception is the
    version exception or the end-of-input exception, whose message names the
    size for want of which the run stopped. *)
Definition reads_by_need {A : Type} (m : JS.M A) : Prop :=
  forall s r s',
    m s = (r, s') ->
    JS.view s' = JS.view s
    /\ (JS.offset s <= JS.offset s')%nat
    /\ match r with
       | Ok a =>
           forall v : list byte,
             take (JS.offset s') v = take (JS.offset s') (JS.view s) ->
             m {| JS.view := v; JS.offset := JS.offset s |}
             = (Ok a, {| JS.view := v; JS.offset := JS.offset s' |})
       | Err e =>
           (exists v : Z, e = JS.Error ("Unsupported RTS version: " +:+ pretty v))
           \/ exists size : nat,
                (length (JS.view s) < JS.offset s' + size)%nat
                /\ e = JS.Error
                         ("Unexpected EOF: expected " +:+ pretty size +:+ " bytes")
                /\ stops_for_want_of m s s' size
       end.

(** [same_on_pieces mc mg]: over a reader that delivers in pieces, the
    method [mc] does what the method [mg] does over the bytes of those
    pieces: the same outcome, and the same bytes left unread. *)
Definition same_on_pieces {A : Type} (mc : Chunked.M A) (mg : Go.M A) : Prop :=
  forall p : Chunked.RTSParser,
    let '(rc, p') := mc p in
    let '(rg, q) := mg (Go.NewRTSParser (concat (Chunked.reader p))) in
    rc = rg /\ concat (Chunked.reader p') = Go.reader q.

(** The end-of-input message of the TypeScript decoder for a read of
    [size] bytes that finds [left] bytes. *)
Definition ts_eof_message (size : nat) (left : Z) : string :=
  "Unexpected EOF: expected " +:+ pretty size +:+ " bytes, but only "
  +:+ pretty left +:+ " left.".

(** The failures of the TypeScript and of the JavaScript decoder, with the
    parser as the failure left it: the version exception, the same in both,
    or the two end-of-input messages for a read of the same size, the
    TypeScript one with the number of bytes between the offset and the end of
    the view. *)
Definition ts_same_failure (s : JS.RTSParser) (te je : JS.exn) : Prop :=
  (exists v : Z,
     te = JS.Error ("Unsupported RTS version: " +:+ pretty v)
     /\ je = JS.Error ("Unsupported RTS version: " +:+ pretty v))
  \/ exists size : nat,
       (length (JS.view s) < JS.offset s + size)%nat
       /\ je = JS.Error ("Unexpected EOF: expected " +:+ pretty size +:+ " bytes")
       /\ te = JS.Error
                 (ts_eof_message size
                    (Z.of_nat (length (JS.view s)) - Z.of_nat (JS.offset s))).

(** [ts_agrees mt mj]: from the same parser state the TypeScript method and
    the JavaScript method return the same value and leave the same state, or
    both throw, leaving the same state, with the same failure. *)
Definition ts_agrees {A : Type} (mt : TS.M A) (mj : JS.M A) : Prop :=
  forall s : JS.RTSParser,
    match mt s, mj s with
    | (Ok a, s1), (Ok b, s2) => a = b /\ s1 = s2
    | (Err te, s1), (Err je, s2) => s1 = s2 /\ ts_same_failure s1 te je
    | _, _ => False
    end.

(** ** Integer arithmetic of the decoder *)

Section Arithmetic.

Lemma u8_range (x : byte) : 0 <= u8 x < 256.
Proof.
  unfold u8. pose proof (Byte.to_N_bounded x) as H.
  split; [apply N2Z.is_nonneg | ].
  apply N2Z.inj_le in H. simpl in H. lia.
Qed.

Lemma wrap64_small (z : Z) : - 2 ^ 63 <= z < 2 ^ 63 -> wrap64 z = z.
Proof.
  intros H. unfold wrap64. rewrite Z.mod_small; lia.
Qed.

Lemma wrap64_high (z : Z) : 2 ^ 63 <= z < 2 ^ 64 -> wrap64 z = z - 2 ^ 64.
Proof.
  intros H. unfold wrap64.
  replace (z + 2 ^ 63) with ((z - 2 ^ 63) + 1 * 2 ^ 64) by lia.
  rewrite Z.mod_add by lia. rewrite Z.mod_small; lia.
Qed.

(** Bits that do not overlap: an [|] of a low part and a shifted high part
    is their sum. *)
Lemma lor_disjoint (a c n : Z) :
  0 <= n -> 0 <= a < 2 ^ n -> Z.lor a (c * 2 ^ n) = a + c * 2 ^ n.
Proof.
  intros Hn Ha.
  rewrite <- (Z.add_lor_land a (c * 2 ^ n)).
  assert (Z.land a (c * 2 ^ n) = 0) as ->; [ | lia].
  apply Z.bits_inj'. intros i Hi.
  rewrite Z.land_spec, Z.bits_0.
  destruct (Z.lt_ge_cases i n) as [Hlt | Hge].
  - rewrite Z.mul_pow2_bits_low by lia. apply andb_false_r.
  - rewrite <- (Z.mod_small a (2 ^ n)) by lia.
    rewrite Z.mod_pow2_bits_high by lia. reflexivity.
Qed.

Lemma shl16_small (x n : Z) :
  0 <= n -> 0 <= x -> x * 2 ^ n < 2 ^ 16 -> shl16 x n = x * 2 ^ n.
Proof.
  intros Hn Hx Hlt. unfold shl16. rewrite Z.shiftl_mul_pow2 by lia.
  apply Z.mod_small. nia.
Qed.

Lemma shl32_small (x n : Z) :
  0 <= n -> 0 <= x -> x * 2 ^ n < 2 ^ 32 -> shl32 x n = x * 2 ^ n.
Proof.
  intros Hn Hx Hlt. unfold shl32. rewrite Z.shiftl_mul_pow2 by lia.
  apply Z.mod_small. nia.
Qed.

Lemma shl64_small (x n : Z) :
  0 <= n -> 0 <= x -> x * 2 ^ n < 2 ^ 63 -> shl64 x n = x * 2 ^ n.
Proof.
  intros Hn Hx Hlt. unfold shl64. rewrite Z.shiftl_mul_pow2 by lia.
  apply wrap64_small. nia.
Qed.

Lemma le16_range b0 b1 : 0 <= le16 b0 b1 < 2 ^ 16.
Proof. unfold le16. pose proof (u8_range b0). pose proof (u8_range b1). lia. Qed.

Lemma le24_range b0 b1 b2 : 0 <= le24 b0 b1 b2 < 2 ^ 24.
Proof. unfold le24. pose proof (le16_range b0 b1). pose proof (u8_range b2). lia. Qed.

Lemma le32_range b0 b1 b2 b3 : 0 <= le32 b0 b1 b2 b3 < 2 ^ 32.
Proof. unfold le32. pose proof (le24_range b0 b1 b2). pose proof (u8_range b3). lia. Qed.

Lemma le40_range b0 b1 b2 b3 b4 : 0 <= le40 b0 b1 b2 b3 b4 < 2 ^ 40.
Proof. unfold le40. pose proof (le32_range b0 b1 b2 b3). pose proof (u8_range b4). lia. Qed.

Lemma Uint16_le16 b0 b1 rest : Go.Uint16 (b0 :: b1 :: rest) = le16 b0 b1.
Proof.
  unfold Go.Uint16, at_, le16. simpl nth.
  pose proof (u8_range b0). pose proof (u8_range b1).
  rewrite shl16_small by lia. rewrite lor_disjoint by lia. lia.
Qed.

Lemma Uint32_le32 b0 b1 b2 b3 rest :
  Go.Uint32 (b0 :: b1 :: b2 :: b3 :: rest) = le32 b0 b1 b2 b3.
Proof.
  unfold Go.Uint32, at_, le32, le24, le16. simpl nth.
  pose proof (u8_range b0). pose proof (u8_range b1).
  pose proof (u8_range b2). pose proof (u8_range b3).
  rewrite !shl32_small by lia.
  rewrite (lor_disjoint (u8 b0)) by lia.
  rewrite (lor_disjoint (u8 b0 + _)) by lia.
  rewrite (lor_disjoint (u8 b0 + _ + _)) by lia. lia.
Qed.

End Arithmetic.

(** ** Sequencing *)

Section Sequencing.

Lemma bind_Ok {St E A B} (m : exec St E A) (f : A -> exec St E B) p a p' :
  m p = (Ok a, p') -> bind m f p = f a p'.
Proof. intros H. unfold bind. rewrite H. reflexivity. Qed.

Lemma bind_Err {St E A B} (m : exec St E A) (f : A -> exec St E B) p e p' :
  m p = (Err e, p') -> bind m f p = (Err e, p').
Proof. intros H. unfold bind. rewrite H. reflexivity. Qed.

(** What a successful or failed bind was made of. *)
Lemma bind_inv_Ok {St E A B} (m : exec St E A) (f : A -> exec St E B) p y q :
  bind m f p = (Ok y, q) ->
  exists a p', m p = (Ok a, p') /\ f a p' = (Ok y, q).
Proof.
  unfold bind. destruct (m p) as [[a | e] p'] eqn:Hm; intros H.
  - exists a, p'. split; [reflexivity | exact H].
  - discriminate H.
Qed.

Lemma bind_inv_Err {St E A B} (m : exec St E A) (f : A -> exec St E B) p e q :
  bind m f p = (Err e, q) ->
  m p = (Err e, q) \/ exists a p', m p = (Ok a, p') /\ f a p' = (Err e, q).
Proof.
  unfold bind. destruct (m p) as [[a | e'] p'] eqn:Hm; intros H.
  - right. exists a, p'. split; [reflexivity | exact H].
  - left. injection H as -> ->. reflexivity.
Qed.

End Sequencing.

(** ** The primitive readers on explicit input *)

Section Readers.

Import Go.

Lemma readExact_app (pre rest : list byte) :
  readExact (length pre) (NewRTSParser (pre ++ rest)) = (Ok pre, NewRTSParser rest).
Proof.
  unfold readExact, io_ReadFull. simpl reader.
  rewrite length_app.
  destruct (Nat.leb_spec (length pre) (length pre + length rest)) as [_ | H]; [ | lia].
  rewrite take_app_length, drop_app_length. reflexivity.
Qed.

Lemma readExact_short (size : nat) (bs : list byte) :
  (length bs < size)%nat ->
  readExact size (NewRTSParser bs) = (Err (eof_error bs), NewRTSParser []).
Proof.
  intros H. unfold readExact, io_ReadFull. simpl reader.
  destruct (Nat.leb_spec size (length bs)) as [H' | _]; [lia | ].
  destruct bs; reflexivity.
Qed.

(** A successful read returns exactly [size] bytes, the front of the source. *)
Lemma readExact_inv_Ok (size : nat) p buf q :
  readExact size p = (Ok buf, q) ->
  reader p = buf ++ reader q /\ length buf = size.
Proof.
  unfold readExact, io_ReadFull.
  destruct (Nat.leb_spec size (length (reader p))) as [H | H].
  - intros [= <- <-]. simpl. rewrite take_drop. split; [reflexivity | ].
    rewrite length_take. lia.
  - destruct (reader p); discriminate.
Qed.

Lemma readExact_inv_Err (size : nat) p e q :
  readExact size p = (Err e, q) ->
  (length (reader p) < size)%nat /\ e = eof_error (reader p) /\ q = NewRTSParser [].
Proof.
  unfold readExact, io_ReadFull.
  destruct (Nat.leb_spec size (length (reader p))) as [H | H].
  - discriminate.
  - destruct (reader p); intros [= <- <-]; auto.
Qed.

Lemma readU8_cons x rest :
  readU8 (NewRTSParser (x :: rest)) = (Ok (u8 x), NewRTSParser rest).
Proof.
  unfold readU8. rewrite (bind_Ok _ _ _ _ _ (readExact_app [x] rest)). reflexivity.
Qed.

Lemma readU16_cons b0 b1 rest :
  readU16 (NewRTSParser (b0 :: b1 :: rest)) = (Ok (le16 b0 b1), NewRTSParser rest).
Proof.
  unfold readU16. rewrite (bind_Ok _ _ _ _ _ (readExact_app [b0; b1] rest)).
  unfold ret. rewrite Uint16_le16. reflexivity.
Qed.

Lemma readU32_cons b0 b1 b2 b3 rest :
  readU32 (NewRTSParser (b0 :: b1 :: b2 :: b3 :: rest))
  = (Ok (le32 b0 b1 b2 b3), NewRTSParser rest).
Proof.
  unfold readU32. rewrite (bind_Ok _ _ _ _ _ (readExact_app [b0; b1; b2; b3] rest)).
  unfold ret. rewrite Uint32_le32. reflexivity.
Qed.

Lemma sext40_cases (u : Z) :
  0 <= u < 2 ^ 40 ->
  (u < 2 ^ 39 /\ sext40 u = u) \/ (2 ^ 39 <= u /\ sext40 u = u - 2 ^ 40).
Proof.
  intros Hu. unfold sext40.
  rewrite Z.testbit_odd, Z.shiftr_div_pow2 by lia.
  destruct (Z.lt_ge_cases u (2 ^ 39)) as [Hlt | Hge].
  - left. rewrite Z.div_small by lia. auto.
  - right. replace (u / 2 ^ 39) with 1; [auto | ].
    apply (Z.div_unique u (2 ^ 39) 1 (u - 2 ^ 39)); lia.
Qed.

(** The shift pair [<< 24 >> 24] on [int64] is the sign extension of a
    40-bit value. *)
Lemma shl_sar_sext40 (u : Z) :
  0 <= u < 2 ^ 40 -> sar64 (shl64 u 24) 24 = sext40 u.
Proof.
  intros Hu. unfold sar64, shl64.
  rewrite Z.shiftl_mul_pow2, Z.shiftr_div_pow2 by lia.
  destruct (sext40_cases u Hu) as [[Hlt ->] | [Hge ->]].
  - rewrite wrap64_small by lia. apply Z.div_mul. lia.
  - rewrite wrap64_high by lia.
    replace (u * 2 ^ 24 - 2 ^ 64) with ((u - 2 ^ 40) * 2 ^ 24) by lia.
    apply Z.div_mul. lia.
Qed.

Lemma sext40_range (u : Z) : 0 <= u < 2 ^ 40 -> - 2 ^ 39 <= sext40 u < 2 ^ 39.
Proof.
  intros Hu. destruct (sext40_cases u Hu) as [[Hlt ->] | [Hge ->]]; lia.
Qed.

Lemma readTime40_cons b0 b1 b2 b3 b4 rest :
  readTime40 (NewRTSParser (b0 :: b1 :: b2 :: b3 :: b4 :: rest))
  = (Ok (Epoch + sext40 (le40 b0 b1 b2 b3 b4)), NewRTSParser rest).
Proof.
  unfold readTime40.
  rewrite (bind_Ok _ _ _ _ _ (readExact_app [b0; b1; b2; b3; b4] rest)).
  unfold ret, at_. simpl nth.
  pose proof (u8_range b0). pose proof (u8_range b1). pose proof (u8_range b2).
  pose proof (u8_range b3). pose proof (u8_range b4).
  rewrite (shl64_small (u8 b1) 8), (shl64_small (u8 b2) 16),
    (shl64_small (u8 b3) 24), (shl64_small (u8 b4) 32) by lia.
  rewrite (lor_disjoint (u8 b0)) by lia.
  rewrite (lor_disjoint (u8 b0 + _)) by lia.
  rewrite (lor_disjoint (u8 b0 + _ + _)) by lia.
  rewrite (lor_disjoint (u8 b0 + _ + _ + _)) by lia.
  replace (u8 b0 + u8 b1 * 2 ^ 8 + u8 b2 * 2 ^ 16 + u8 b3 * 2 ^ 24 + u8 b4 * 2 ^ 32)
    with (le40 b0 b1 b2 b3 b4) by (unfold le40, le32, le24, le16; lia).
  pose proof (le40_range b0 b1 b2 b3 b4) as Hr.
  rewrite shl_sar_sext40 by exact Hr.
  pose proof (sext40_range _ Hr) as Hs.
  unfold add64, Epoch. rewrite wrap64_small by lia. reflexivity.
Qed.

End Readers.

(** ** The field decoders *)

Section Fields.

Import Go.

Lemma readVarInt_byte m rest :
  u8 m <= 0xFC ->
  readVarInt (NewRTSParser (m :: rest))
  = (Ok (float64_of_Z (u8 m) / 100)%float, NewRTSParser rest).
Proof.
  intros Hm. unfold readVarInt.
  rewrite (bind_Ok _ _ _ _ _ (readU8_cons m rest)).
  destruct (Z.leb_spec (u8 m) 252) as [_ | H]; [reflexivity | lia].
Qed.

Lemma readVarInt_u16 lo hi rest :
  readVarInt (NewRTSParser (Byte.xfd :: lo :: hi :: rest))
  = (Ok (float64_of_Z (le16 lo hi) / 100)%float, NewRTSParser rest).
Proof.
  unfold readVarInt.
  rewrite (bind_Ok _ _ _ _ _ (readU8_cons Byte.xfd (lo :: hi :: rest))).
  change (u8 Byte.xfd <=? 252) with false. change (u8 Byte.xfd =? 253) with true.
  cbv iota.
  rewrite (bind_Ok _ _ (NewRTSParser (lo :: hi :: rest)) (le16 lo hi) (NewRTSParser rest)).
  - reflexivity.
  - rewrite (bind_Ok _ _ _ _ _ (readU16_cons lo hi rest)). reflexivity.
Qed.

Lemma readVarInt_u24 b0 b1 b2 rest :
  readVarInt (NewRTSParser (Byte.xfe :: b0 :: b1 :: b2 :: rest))
  = (Ok (float64_of_Z (le24 b0 b1 b2) / 100)%float, NewRTSParser rest).
Proof.
  unfold readVarInt.
  rewrite (bind_Ok _ _ _ _ _ (readU8_cons Byte.xfe (b0 :: b1 :: b2 :: rest))).
  change (u8 Byte.xfe <=? 252) with false. change (u8 Byte.xfe =? 253) with false.
  change (u8 Byte.xfe =? 254) with true. cbv iota.
  rewrite (bind_Ok _ _ (NewRTSParser (b0 :: b1 :: b2 :: rest)) (le24 b0 b1 b2)
             (NewRTSParser rest)).
  - reflexivity.
  - rewrite (bind_Ok _ _ _ _ _ (readExact_app [b0; b1; b2] rest)).
    unfold ret, at_, le24, le16. simpl nth.
    pose proof (u8_range b0). pose proof (u8_range b1). pose proof (u8_range b2).
    rewrite (shl32_small (u8 b1) 8), (shl32_small (u8 b2) 16) by lia.
    rewrite (lor_disjoint (u8 b0)) by lia.
    rewrite (lor_disjoint (u8 b0 + _)) by lia.
    do 2 f_equal. lia.
Qed.

Lemma readVarInt_reserved rest :
  readVarInt (NewRTSParser (Byte.xff :: rest)) = (Ok 0%float, NewRTSParser rest).
Proof.
  unfold readVarInt.
  rewrite (bind_Ok _ _ _ _ _ (readU8_cons Byte.xff rest)). reflexivity.
Qed.

(** [math.Round] sends a tie away from zero and keeps the sign of a value
    that rounds to zero; [Math.round] sends a tie towards plus infinity. *)
Lemma math_Round_ties :
  map math_Round [2.5; -2.5; 0.5; -0.5; 0.25; -0.25; 3.75; -3.75; 7; 0]%float
  = [3; -3; 1; -1; 0; -0; 4; -4; 7; 0]%float.
Proof. vm_compute. reflexivity. Qed.

Lemma Math_round_ties :
  map Math_round [2.5; -2.5; 0.5; -0.5; 0.25; -0.25; 3.75; -3.75; 7; 0]%float
  = [3; -2; 1; -0; 0; -0; 4; -4; 7; 0]%float.
Proof. vm_compute. reflexivity. Qed.

(** The alert test [(raw & 0x80) != 0] reads bit 7. *)
Lemma alert_bit7 (raw : byte) :
  negb (Z.land (u8 raw) 0x80 =? 0) = Z.testbit (u8 raw) 7.
Proof. destruct raw; reflexivity. Qed.

Lemma readIntensityAlert_cons raw rest :
  readIntensityAlert (NewRTSParser (raw :: rest))
  = (Ok (round1 (float64_of_Z (Z.land (u8 raw) 0x7F) / 10 - 3)%float,
         Z.testbit (u8 raw) 7),
     NewRTSParser rest).
Proof.
  unfold readIntensityAlert.
  rewrite (bind_Ok _ _ _ _ _ (readU8_cons raw rest)).
  unfold ret. rewrite alert_bit7. reflexivity.
Qed.

(** The rounding removes the error of the division and the subtraction: the
    result is the float of the one-decimal value [(m - 30) / 10]. *)
Lemma station_intensity_tenths (raw : byte) :
  round1 (float64_of_Z (Z.land (u8 raw) 0x7F) / 10 - 3)%float
  = tenths (Z.land (u8 raw) 0x7F - 30).
Proof. destruct raw; vm_compute; reflexivity. Qed.

Lemma area_intensity_tenths (raw : byte) :
  round1 (float64_of_Z (u8 raw) / 10 - 3)%float = tenths (u8 raw - 30).
Proof. destruct raw; vm_compute; reflexivity. Qed.

End Fields.

(** ** How the readers compose *)

Section Composition.

Import Go.

Lemma parser_eta (p : RTSParser) : NewRTSParser (reader p) = p.
Proof. destruct p. reflexivity. Qed.

(** *** Extension of the input *)

Lemma extends_ret {A} (a : A) : extends (ret a).
Proof. intros p a' q extra [= <- <-]. reflexivity. Qed.

Lemma extends_fail {A} (e : error) : extends (fail e : M A).
Proof. intros p a q extra H. discriminate H. Qed.

Lemma extends_bind {A B} (m : M A) (f : A -> M B) :
  extends m -> (forall a, extends (f a)) -> extends (bind m f).
Proof.
  intros Hm Hf p y q extra H.
  apply bind_inv_Ok in H as (a & p' & H1 & H2).
  rewrite (bind_Ok _ _ _ _ _ (Hm _ _ _ extra H1)).
  exact (Hf _ _ _ _ extra H2).
Qed.

Lemma extends_readExact (size : nat) : extends (readExact size).
Proof.
  intros p buf q extra H.
  apply readExact_inv_Ok in H as [Hp Hlen].
  rewrite Hp, <- Hlen, <- app_assoc. apply readExact_app.
Qed.

Lemma extends_forRange {X} (body : nat -> X -> M X) (k : nat) :
  (forall i s, extends (body i s)) ->
  forall i s, extends (forRange k i body s).
Proof.
  intros Hbody. induction k as [| k IH]; intros i s; simpl.
  - apply extends_ret.
  - apply extends_bind; [apply Hbody | intros s'; apply IH].
Qed.

(** *** Failures *)

Lemma fails_at_end_ret {A} (a : A) : fails_at_end (ret a).
Proof. intros p e q H. discriminate H. Qed.

Lemma fails_at_end_bind {A B} (m : M A) (f : A -> M B) :
  fails_at_end m -> (forall a, fails_at_end (f a)) -> fails_at_end (bind m f).
Proof.
  intros Hm Hf p e q H.
  apply bind_inv_Err in H as [H | (a & p' & _ & H)].
  - exact (Hm _ _ _ H).
  - exact (Hf _ _ _ _ H).
Qed.

Lemma fails_at_end_readExact (size : nat) : fails_at_end (readExact size).
Proof.
  intros p e q H. apply readExact_inv_Err in H as (_ & -> & ->).
  split; [ | reflexivity]. destruct (reader p); simpl; auto.
Qed.

Lemma fails_at_end_forRange {X} (body : nat -> X -> M X) (k : nat) :
  (forall i s, fails_at_end (body i s)) ->
  forall i s, fails_at_end (forRange k i body s).
Proof.
  intros Hbody. induction k as [| k IH]; intros i s; simpl.
  - apply fails_at_end_ret.
  - apply fails_at_end_bind; [apply Hbody | intros s'; apply IH].
Qed.

(** *** Bytes consumed *)

Lemma consumes_ret {A} (a : A) : consumes 0 0 (ret a).
Proof.
  intros p a' q [= <- <-]. exists []. simpl. auto.
Qed.

Lemma consumes_fail {A} (lo hi : nat) (e : error) : consumes lo hi (fail e : M A).
Proof. intros p a q H. discriminate H. Qed.

Lemma consumes_weaken {A} (lo hi lo' hi' : nat) (m : M A) :
  consumes lo hi m -> (lo' <= lo)%nat -> (hi <= hi')%nat -> consumes lo' hi' m.
Proof.
  intros Hm Hlo Hhi p a q H.
  destruct (Hm _ _ _ H) as (pre & Hp & H1 & H2).
  exists pre. repeat split; [exact Hp | lia | lia].
Qed.

Lemma consumes_bind {A B} (lo1 hi1 lo2 hi2 : nat) (m : M A) (f : A -> M B) :
  consumes lo1 hi1 m -> (forall a, consumes lo2 hi2 (f a)) ->
  consumes (lo1 + lo2) (hi1 + hi2) (bind m f).
Proof.
  intros Hm Hf p y q H.
  apply bind_inv_Ok in H as (a & p' & H1 & H2).
  destruct (Hm _ _ _ H1) as (pre1 & Hp1 & ? & ?).
  destruct (Hf _ _ _ _ H2) as (pre2 & Hp2 & ? & ?).
  exists (pre1 ++ pre2). rewrite Hp1, Hp2, app_assoc, length_app.
  repeat split; lia.
Qed.

Lemma consumes_readExact (size : nat) : consumes size size (readExact size).
Proof.
  intros p buf q H. apply readExact_inv_Ok in H as [Hp Hlen].
  exists buf. rewrite Hlen. auto.
Qed.

End Composition.

(** ** The readers of the decoder, one by one *)

Create HintDb rts discriminated.

Section Instances.

Import Go.

Lemma extends_if {A} (c : bool) (m1 m2 : M A) :
  extends m1 -> extends m2 -> extends (if c then m1 else m2).
Proof. destruct c; auto. Qed.

Lemma fails_at_end_if {A} (c : bool) (m1 m2 : M A) :
  fails_at_end m1 -> fails_at_end m2 -> fails_at_end (if c then m1 else m2).
Proof. destruct c; auto. Qed.

Lemma consumes_if {A} (lo hi : nat) (c : bool) (m1 m2 : M A) :
  consumes lo hi m1 -> consumes lo hi m2 -> consumes lo hi (if c then m1 else m2).
Proof. destruct c; auto. Qed.


#[local] Hint Resolve extends_ret extends_fail extends_readExact : rts.
#[local] Hint Resolve fails_at_end_ret fails_at_end_readExact : rts.

(** One step of a proof that a reader built from binds has one of the three
    properties: split a bind, enter a branch, open a pair, or finish with a
    reader already handled. *)
Ltac reader_step :=
  lazymatch goal with
  | |- extends (bind _ _) => apply extends_bind; [ | intros ? ]
  | |- fails_at_end (bind _ _) => apply fails_at_end_bind; [ | intros ? ]
  | |- extends (forRange _ _ _ _) => apply extends_forRange; intros ? ?
  | |- fails_at_end (forRange _ _ _ _) => apply fails_at_end_forRange; intros ? ?
  | |- extends (if _ then _ else _) => apply extends_if
  | |- fails_at_end (if _ then _ else _) => apply fails_at_end_if
  | |- _ (let '(_, _) := ?x in _) => destruct x
  | |- _ => solve [ auto with rts ]
  end.

Ltac reader_auto := cbv zeta; repeat reader_step.

Lemma extends_readU8 : extends readU8.
Proof. unfold readU8. reader_auto. Qed.

Lemma extends_readU16 : extends readU16.
Proof. unfold readU16. reader_auto. Qed.

Lemma extends_readU32 : extends readU32.
Proof. unfold readU32. reader_auto. Qed.

Lemma extends_readTime40 : extends readTime40.
Proof. unfold readTime40. reader_auto. Qed.

#[local] Hint Resolve extends_readU8 extends_readU16 extends_readU32
  extends_readTime40 : rts.

Lemma extends_readVarInt : extends readVarInt.
Proof. unfold readVarInt. reader_auto. Qed.

Lemma extends_readIntensityAlert : extends readIntensityAlert.
Proof. unfold readIntensityAlert. reader_auto. Qed.

#[local] Hint Resolve extends_readVarInt extends_readIntensityAlert : rts.

Lemma extends_readStation : extends readStation.
Proof. unfold readStation. reader_auto. Qed.

Lemma extends_readAreaIntensity : extends readAreaIntensity.
Proof. unfold readAreaIntensity. reader_auto. Qed.

#[local] Hint Resolve extends_readStation extends_readAreaIntensity : rts.

Lemma extends_parseM : extends parseM.
Proof.
  unfold parseM. reader_auto.
Qed.

Lemma fails_at_end_readU8 : fails_at_end readU8.
Proof. unfold readU8. reader_auto. Qed.

Lemma fails_at_end_readU16 : fails_at_end readU16.
Proof. unfold readU16. reader_auto. Qed.

Lemma fails_at_end_readU32 : fails_at_end readU32.
Proof. unfold readU32. reader_auto. Qed.

Lemma fails_at_end_readTime40 : fails_at_end readTime40.
Proof. unfold readTime40. reader_auto. Qed.

#[local] Hint Resolve fails_at_end_readU8 fails_at_end_readU16
  fails_at_end_readU32 fails_at_end_readTime40 : rts.

Lemma fails_at_end_readVarInt : fails_at_end readVarInt.
Proof. unfold readVarInt. reader_auto. Qed.

Lemma fails_at_end_readIntensityAlert : fails_at_end readIntensityAlert.
Proof. unfold readIntensityAlert. reader_auto. Qed.

#[local] Hint Resolve fails_at_end_readVarInt fails_at_end_readIntensityAlert : rts.

Lemma fails_at_end_readStation : fails_at_end readStation.
Proof. unfold readStation. reader_auto. Qed.

Lemma fails_at_end_readAreaIntensity : fails_at_end readAreaIntensity.
Proof. unfold readAreaIntensity. reader_auto. Qed.

#[local] Hint Resolve fails_at_end_readStation fails_at_end_readAreaIntensity : rts.

(** Bytes taken by each reader. *)

Lemma consumes_readU8 : consumes 1 1 readU8.
Proof.
  unfold readU8. apply (consumes_bind 1 1 0 0);
    [apply consumes_readExact | intros; apply consumes_ret].
Qed.

Lemma consumes_readU16 : consumes 2 2 readU16.
Proof.
  unfold readU16. apply (consumes_bind 2 2 0 0);
    [apply consumes_readExact | intros; apply consumes_ret].
Qed.

Lemma consumes_readU32 : consumes 4 4 readU32.
Proof.
  unfold readU32. apply (consumes_bind 4 4 0 0);
    [apply consumes_readExact | intros; apply consumes_ret].
Qed.

Lemma consumes_readTime40 : consumes 5 5 readTime40.
Proof.
  unfold readTime40. apply (consumes_bind 5 5 0 0);
    [apply consumes_readExact | intros; apply consumes_ret].
Qed.

(** A VarInt is its marker and 0, 2 or 3 more bytes. *)
Lemma consumes_readVarInt : consumes 1 4 readVarInt.
Proof.
  unfold readVarInt. apply (consumes_bind 1 1 0 3); [apply consumes_readU8 | ].
  intros marker. apply (consumes_bind 0 3 0 0); [ | intros; apply consumes_ret].
  repeat apply consumes_if.
  - apply (consumes_weaken 0 0); [apply consumes_ret | lia | lia].
  - apply (consumes_weaken 2 2); [ | lia | lia].
    apply (consumes_bind 2 2 0 0); [apply consumes_readU16 | intros; apply consumes_ret].
  - apply (consumes_weaken 3 3); [ | lia | lia].
    apply (consumes_bind 3 3 0 0); [apply consumes_readExact | intros; apply consumes_ret].
  - apply (consumes_weaken 0 0); [apply consumes_ret | lia | lia].
Qed.

Lemma consumes_readIntensityAlert : consumes 1 1 readIntensityAlert.
Proof.
  unfold readIntensityAlert. apply (consumes_bind 1 1 0 0);
    [apply consumes_readU8 | intros; apply consumes_ret].
Qed.

(** A station record is 7 to 13 bytes long. *)
Lemma consumes_readStation : consumes 7 13 readStation.
Proof.
  unfold readStation.
  apply (consumes_bind 4 4 3 9); [apply consumes_readU32 | intros id].
  apply (consumes_bind 1 4 2 5); [apply consumes_readVarInt | intros pga].
  apply (consumes_bind 1 4 1 1); [apply consumes_readVarInt | intros pgv].
  apply (consumes_bind 1 1 0 0); [apply consumes_readIntensityAlert | intros [i a]].
  apply consumes_ret.
Qed.

(** An area record is 3 bytes long. *)
Lemma consumes_readAreaIntensity : consumes 3 3 readAreaIntensity.
Proof.
  unfold readAreaIntensity.
  apply (consumes_bind 2 2 1 1); [apply consumes_readU16 | intros code].
  apply (consumes_bind 1 1 0 0); [apply consumes_readU8 | intros rawI].
  apply consumes_ret.
Qed.

(** ** The two record loops and the whole decode *)

(** The loop that fills a slice slot by slot returns the records in the
    order it read them: slots [i .. i + k) hold them, the others are kept. *)
Lemma forRange_fill {A} (rd : M A) (k : nat) :
  forall i (s : list A) p s' q,
    (i + k <= length s)%nat ->
    forRange k i (fun i s => do x <- rd ; ret (<[i := x]> s)) s p = (Ok s', q) ->
    exists xs,
      length xs = k
      /\ reads_in_order rd (reader p) xs (reader q)
      /\ s' = take i s ++ xs ++ drop (i + k) s.
Proof.
  induction k as [| k IH]; intros i s p s' q Hlen H; simpl in H.
  - injection H as <- <-. exists []. split; [reflexivity | ].
    split; [constructor | ].
    rewrite Nat.add_0_r. simpl. symmetry. apply take_drop.
  - apply bind_inv_Ok in H as (s1 & p1 & Hbody & Hrest).
    apply bind_inv_Ok in Hbody as (x & p1' & Hrd & Hret).
    injection Hret as <- <-.
    apply IH in Hrest as (xs & Hxs & Hrio & ->); [ | rewrite length_insert; lia].
    exists (x :: xs). split; [simpl; lia | ]. split.
    + apply (rio_cons rd _ x (reader p1')); [ | exact Hrio].
      rewrite !parser_eta. exact Hrd.
    + replace (i + S k)%nat with (S i + k)%nat by lia.
      rewrite (take_S_r _ i x) by (apply list_lookup_insert_eq; lia).
      rewrite take_insert_ge by lia.
      rewrite drop_insert_lt by lia.
      rewrite <- app_assoc. reflexivity.
Qed.

(** From a fresh slice of [n] zero values, [n] iterations leave exactly the
    records read. *)
Lemma forRange_make {A} (rd : M A) (n : nat) (zero : A) p s' q :
  forRange n 0 (fun i s => do x <- rd ; ret (<[i := x]> s)) (replicate n zero) p
  = (Ok s', q) ->
  length s' = n /\ reads_in_order rd (reader p) s' (reader q).
Proof.
  intros H. apply forRange_fill in H as (xs & Hxs & Hrio & ->).
  - rewrite take_0, drop_ge, app_nil_r by (rewrite length_replicate; lia).
    simpl. auto.
  - rewrite length_replicate. lia.
Qed.

(** Records read in order take their bytes off the front of the source. *)
Lemma reads_in_order_length {A} (rd : M A) (lo hi : nat) :
  consumes lo hi rd ->
  forall bs xs bs',
    reads_in_order rd bs xs bs' ->
    exists pre, bs = pre ++ bs'
                /\ (lo * length xs <= length pre)%nat
                /\ (length pre <= hi * length xs)%nat.
Proof.
  intros Hrd bs xs bs' H. induction H as [bs | bs x bs1 xs bs2 Hx _ IH].
  - exists []. simpl. split; [reflexivity | lia].
  - destruct (Hrd _ _ _ Hx) as (pre1 & Hp1 & ? & ?). simpl in Hp1.
    destruct IH as (pre2 & Hp2 & ? & ?).
    exists (pre1 ++ pre2). rewrite Hp1, Hp2, app_assoc, length_app.
    simpl. repeat split; lia.
Qed.

(** Reading in order goes through when more bytes follow. *)
Lemma reads_in_order_app {A} (rd : M A) :
  extends rd ->
  forall bs xs bs' extra,
    reads_in_order rd bs xs bs' ->
    reads_in_order rd (bs ++ extra) xs (bs' ++ extra).
Proof.
  intros Hrd bs xs bs' extra H. induction H as [bs | bs x bs1 xs bs2 Hx _ IH].
  - constructor.
  - apply (rio_cons rd _ x (bs1 ++ extra)); [ | exact IH].
    exact (Hrd _ _ _ extra Hx).
Qed.

(** What a successful read of each header field consumed. *)
Lemma readU8_inv_Ok p v q :
  readU8 p = (Ok v, q) -> exists x, reader p = x :: reader q /\ v = u8 x.
Proof.
  intros H. destruct (consumes_readU8 _ _ _ H) as (pre & Hp & H1 & H2).
  destruct pre as [| x [| ? ?]]; simpl in *; try lia.
  exists x. split; [exact Hp | ].
  rewrite <- (parser_eta p), Hp, readU8_cons in H. congruence.
Qed.

Lemma readU16_inv_Ok p v q :
  readU16 p = (Ok v, q) ->
  exists b0 b1, reader p = b0 :: b1 :: reader q /\ v = le16 b0 b1.
Proof.
  intros H. destruct (consumes_readU16 _ _ _ H) as (pre & Hp & H1 & H2).
  destruct pre as [| b0 [| b1 [| ? ?]]]; simpl in *; try lia.
  exists b0, b1. split; [exact Hp | ].
  rewrite <- (parser_eta p), Hp, readU16_cons in H. congruence.
Qed.

Lemma readTime40_inv_Ok p v q :
  readTime40 p = (Ok v, q) ->
  exists b0 b1 b2 b3 b4,
    reader p = b0 :: b1 :: b2 :: b3 :: b4 :: reader q
    /\ v = Epoch + sext40 (le40 b0 b1 b2 b3 b4).
Proof.
  intros H. destruct (consumes_readTime40 _ _ _ H) as (pre & Hp & H1 & H2).
  destruct pre as [| b0 [| b1 [| b2 [| b3 [| b4 [| ? ?]]]]]]; simpl in *; try lia.
  exists b0, b1, b2, b3, b4. split; [exact Hp | ].
  rewrite <- (parser_eta p), Hp, readTime40_cons in H. congruence.
Qed.

(** The anatomy of a successful decode. *)
Lemma parseM_inv_Ok p d q :
  parseM p = (Ok d, q) ->
  exists v t0 t1 t2 t3 t4 s0 s1 i0 i1 r0 r1 body mid,
    reader p = v :: t0 :: t1 :: t2 :: t3 :: t4 :: s0 :: s1 :: i0 :: i1 :: r0 :: r1 :: body
    /\ u8 v = 1
    /\ Header d = header_of t0 t1 t2 t3 t4 s0 s1 i0 i1 r0 r1
    /\ length (Stations d) = Z.to_nat (le16 s0 s1)
    /\ reads_in_order readStation body (Stations d) mid
    /\ length (AreaIntensities d) = Z.to_nat (le16 i0 i1)
    /\ reads_in_order readAreaIntensity mid (AreaIntensities d) (reader q).
Proof.
  intros H. unfold parseM in H.
  apply bind_inv_Ok in H as (version & p1 & Hv & H).
  apply readU8_inv_Ok in Hv as (v & Hp & ->).
  destruct (Z.eqb_spec (u8 v) SupportedVersion) as [Hver | Hver]; cbn [negb] in H;
    [ | discriminate H].
  apply bind_inv_Ok in H as (ts & p2 & Hts & H).
  apply readTime40_inv_Ok in Hts as (t0 & t1 & t2 & t3 & t4 & Hp1 & ->).
  apply bind_inv_Ok in H as (sc & p3 & Hsc & H).
  apply readU16_inv_Ok in Hsc as (s0 & s1 & Hp2 & ->).
  apply bind_inv_Ok in H as (ic & p4 & Hic & H).
  apply readU16_inv_Ok in Hic as (i0 & i1 & Hp3 & ->).
  apply bind_inv_Ok in H as (rs & p5 & Hrs & H).
  apply readU16_inv_Ok in Hrs as (r0 & r1 & Hp4 & ->).
  apply bind_inv_Ok in H as (stations & p6 & Hst & H).
  apply forRange_make in Hst as [Hlen1 Hrio1].
  apply bind_inv_Ok in H as (areaInts & p7 & Har & H).
  apply forRange_make in Har as [Hlen2 Hrio2].
  injection H as <- <-.
  exists v, t0, t1, t2, t3, t4, s0, s1, i0, i1, r0, r1, (reader p5), (reader p6).
  simpl. rewrite Hp, Hp1, Hp2, Hp3, Hp4, Hver.
  repeat split; assumption.
Qed.

(** The anatomy of a failed decode: the version error with only the version
    byte consumed, or an end-of-input error with the source drained. *)
Lemma parseM_inv_Err p e q :
  parseM p = (Err e, q) ->
  (exists v rest, reader p = v :: rest /\ u8 v <> 1
                  /\ e = unsupported_version v /\ q = NewRTSParser rest)
  \/ ((e = EOF \/ e = ErrUnexpectedEOF) /\ q = NewRTSParser []).
Proof.
  intros H. unfold parseM in H.
  apply bind_inv_Err in H as [H | (version & p1 & Hv & H)].
  - right. exact (fails_at_end_readU8 _ _ _ H).
  - apply readU8_inv_Ok in Hv as (v & Hp & ->).
    destruct (Z.eqb_spec (u8 v) SupportedVersion) as [Hver | Hver]; cbn [negb] in H.
    + right. revert H. generalize p1 e q.
      match goal with
      | |- forall p e q, ?m p = _ -> _ => change (fails_at_end m)
      end.
      reader_auto.
    + left. injection H as <- <-. exists v, (reader p1).
      rewrite parser_eta. auto.
Qed.

End Instances.

(** ** Results of [Parse] *)

Section ParseResults.

Import Go.

Lemma Parse_Some p d e q :
  Parse p = ((Some d, e), q) -> parseM p = (Ok d, q) /\ e = None.
Proof.
  unfold Parse. destruct (parseM p) as [[d' | e'] q']; intros H.
  - injection H as -> <- ->. auto.
  - discriminate H.
Qed.

Lemma Parse_None p e q :
  Parse p = ((None, Some e), q) -> parseM p = (Err e, q).
Proof.
  unfold Parse. destruct (parseM p) as [[d' | e'] q']; intros H.
  - discriminate H.
  - injection H as -> ->. reflexivity.
Qed.

Lemma Parse_Ok p d q : parseM p = (Ok d, q) -> Parse p = ((Some d, None), q).
Proof. intros H. unfold Parse. rewrite H. reflexivity. Qed.

Lemma Parse_Err p e q : parseM p = (Err e, q) -> Parse p = ((None, Some e), q).
Proof. intros H. unfold Parse. rewrite H. reflexivity. Qed.

(** A returned document is complete. *)
Lemma parseM_complete p d q : parseM p = (Ok d, q) -> complete d.
Proof.
  intros H. apply parseM_inv_Ok in H
    as (v & t0 & t1 & t2 & t3 & t4 & s0 & s1 & i0 & i1 & r0 & r1 & body & mid
        & _ & _ & Hh & Hs & _ & Ha & _).
  unfold complete. rewrite Hh, Hs, Ha. simpl.
  pose proof (le16_range s0 s1). pose proof (le16_range i0 i1).
  rewrite !Z2Nat.id by lia. auto.
Qed.

Lemma sample_capture_parses :
  Parse (NewRTSParser sample_capture) = ((Some sample_document, None), NewRTSParser []).
Proof. vm_compute. reflexivity. Qed.

End ParseResults.

(** ** The JavaScript decoder against the Go decoder *)

Section TwoDecoders.

Lemma drop_cons_nth (v : list byte) (off : nat) :
  (off < length v)%nat -> drop off v = nth off v Byte.x00 :: drop (S off) v.
Proof.
  revert off. induction v as [| x v IH]; intros off H; simpl in H; [lia | ].
  destruct off as [| off]; [reflexivity | ].
  simpl. apply IH. lia.
Qed.

Lemma eof_error_cases (bs : list byte) :
  eof_error bs = Go.EOF \/ eof_error bs = Go.ErrUnexpectedEOF.
Proof. destruct bs; simpl; auto. Qed.

Lemma same_failure_eof (size : nat) (v : list byte) (off : nat) :
  (length v < off + size)%nat ->
  same_failure {| JS.view := v; JS.offset := off |}
    (JS.Error ("Unexpected EOF: expected " +:+ pretty size +:+ " bytes"))
    (eof_error (drop off v)).
Proof. intros H. left. exists size. auto. Qed.

(** *** Composition *)

Lemma simulates_ret {A B} (R : A -> B -> Prop) a b :
  R a b -> simulates R (ret a) (ret b).
Proof. intros H s. simpl. auto. Qed.

Lemma simulates_bind {A B A' B'} (R : A -> B -> Prop) (R' : A' -> B' -> Prop)
    (mj : JS.M A) (mg : Go.M B) (fj : A -> JS.M A') (fg : B -> Go.M B') :
  simulates R mj mg ->
  (forall a b, R a b -> simulates R' (fj a) (fg b)) ->
  simulates R' (bind mj fj) (bind mg fg).
Proof.
  intros Hm Hf s. specialize (Hm s). unfold bind.
  destruct (mj s) as [[a | je] s1]; destruct (mg _) as [[b | ge] p1];
    try contradiction; [ | exact Hm].
  destruct Hm as (HR & Hview & Hreader).
  specialize (Hf a b HR s1). rewrite Hview in Hf.
  rewrite <- (parser_eta p1), Hreader.
  destruct (fj a s1) as [[a' | je] s2]; destruct (fg b _) as [[b' | ge] p2];
    try contradiction.
  - destruct Hf as (HR' & Hview' & Hreader'). rewrite Hview'. auto.
  - destruct Hf as (Hview' & Hf). rewrite Hview'. auto.
Qed.

Lemma simulates_assoc {A B C D} (R : A -> D -> Prop) (mj : JS.M A)
    (m : Go.M B) (f : B -> Go.M C) (g : C -> Go.M D) :
  simulates R mj (bind m (fun b => bind (f b) g)) ->
  simulates R mj (bind (bind m f) g).
Proof.
  intros H s. specialize (H s). unfold bind in *.
  destruct (m _) as [[b | e] p1]; exact H.
Qed.

Lemma simulates_ret_l {A B C} (R : A -> C -> Prop) (mj : JS.M A) (b : B)
    (g : B -> Go.M C) :
  simulates R mj (g b) -> simulates R mj (bind (ret b) g).
Proof. intros H s. exact (H s). Qed.

Lemma simulates_ret_r {A B} (R : A -> B -> Prop) (mj : JS.M A) (mg : Go.M B) :
  simulates R mj mg -> simulates R mj (bind mg (fun v => ret v)).
Proof.
  intros H s. specialize (H s). unfold bind, ret.
  destruct (mg _) as [[b | e] p1]; exact H.
Qed.

Lemma simulates_forRange {A B} (R : nat -> A -> B -> Prop) (n : nat)
    (bodyJ : nat -> A -> JS.M A) (bodyG : nat -> B -> Go.M B) :
  (forall i a b, (i < n)%nat -> R i a b -> simulates (R (S i)) (bodyJ i a) (bodyG i b)) ->
  forall k i a b,
    (i + k = n)%nat -> R i a b ->
    simulates (R n) (forRange k i bodyJ a) (forRange k i bodyG b).
Proof.
  intros Hbody. induction k as [| k IH]; intros i a b Hik HR; simpl.
  - replace n with i by lia. apply simulates_ret. exact HR.
  - apply (simulates_bind (R (S i))).
    + apply Hbody; [lia | exact HR].
    + intros a' b' HR'. apply IH; [lia | exact HR'].
Qed.

(** *** Integer operators of JavaScript on small values *)

Lemma wrap32_small (z : Z) : - 2 ^ 31 <= z < 2 ^ 31 -> wrap32 z = z.
Proof. intros H. unfold wrap32. rewrite Z.mod_small; lia. Qed.

Lemma js_shl_small (x n : Z) :
  0 <= n < 32 -> 0 <= x -> x * 2 ^ n < 2 ^ 31 -> js_shl x n = x * 2 ^ n.
Proof.
  intros Hn Hx Hlt. unfold js_shl.
  assert (0 < 2 ^ n) by (apply Z.pow_pos_nonneg; lia).
  assert (x < 2 ^ 31) by nia.
  rewrite (wrap32_small x) by lia.
  rewrite Z.mod_small by lia.
  rewrite Z.shiftl_mul_pow2 by lia. apply wrap32_small. nia.
Qed.

Lemma js_or_disjoint (a c n : Z) :
  0 <= n -> 0 <= a < 2 ^ n -> 0 <= c -> a + c * 2 ^ n < 2 ^ 31 ->
  js_or a (c * 2 ^ n) = a + c * 2 ^ n.
Proof.
  intros Hn Ha Hc Hlt. unfold js_or.
  assert (0 < 2 ^ n) by (apply Z.pow_pos_nonneg; lia).
  assert (0 <= c * 2 ^ n) by nia.
  rewrite (wrap32_small a), (wrap32_small (c * 2 ^ n)) by lia.
  apply lor_disjoint; lia.
Qed.

Lemma js_and_byte (x : byte) (k : Z) :
  0 <= k < 2 ^ 31 -> js_and (u8 x) k = Z.land (u8 x) k.
Proof.
  intros Hk. unfold js_and. pose proof (u8_range x).
  rewrite !wrap32_small by lia. reflexivity.
Qed.

(** The sign test [rawOffset & (1n << 39n)] reads bit 39. *)
Lemma sign_test_bit39 (u : Z) :
  negb (Z.land u (Z.shiftl 1 39) =? 0) = Z.testbit u 39.
Proof.
  rewrite Z.shiftl_1_l.
  destruct (Z.testbit u 39) eqn:Hbit.
  - destruct (Z.eqb_spec (Z.land u (2 ^ 39)) 0) as [H0 | _]; [ | reflexivity].
    exfalso. apply (f_equal (fun z => Z.testbit z 39)) in H0.
    rewrite Z.land_spec, Hbit, Z.pow2_bits_true, Z.bits_0 in H0 by lia.
    discriminate H0.
  - replace (Z.land u (2 ^ 39)) with 0; [reflexivity | ].
    symmetry. apply Z.bits_inj'. intros i Hi.
    rewrite Z.land_spec, Z.bits_0, Z.pow2_bits_eqb by lia.
    destruct (Z.eqb_spec 39 i) as [<- | _]; [rewrite Hbit | ]; auto using andb_false_r.
Qed.

(** The two rounding functions agree on every value that the decoders
    round. *)
Lemma round_station_agree (x : byte) :
  (Math_round ((float64_of_Z (js_and (u8 x) 0x7f) / 10 - JS.INTENSITY_OFFSET) * 10) / 10)%float
  = (math_Round ((float64_of_Z (Z.land (u8 x) 0x7F) / 10 - Go.IntensityOffset) * 10) / 10)%float.
Proof. destruct x; vm_compute; reflexivity. Qed.

Lemma round_area_agree (x : byte) :
  (Math_round ((float64_of_Z (u8 x) / 10 - JS.INTENSITY_OFFSET) * 10) / 10)%float
  = (math_Round ((float64_of_Z (u8 x) / 10 - Go.IntensityOffset) * 10) / 10)%float.
Proof. destruct x; vm_compute; reflexivity. Qed.

Lemma alert_agree (x : byte) :
  negb (js_and (u8 x) 0x80 =? 0) = negb (Z.land (u8 x) 0x80 =? 0).
Proof. rewrite js_and_byte by lia. reflexivity. Qed.

(** *** The primitive readers *)

(** Unfold a JavaScript reader down to its bounds check. *)
Ltac js_reader :=
  unfold JS._readU8, JS._readU16, JS._readU32, JS._readTime40, bind,
    JS._checkBounds, JS.this, JS.advance, ret, JS.byteLength;
  cbn [JS.view JS.offset].

(** The case of a read past the end: the Go reader fails in [readExact]. *)
Ltac short_read size :=
  match goal with
  | H : (length ?v < ?off + _)%nat |- _ =>
      rewrite (bind_Err _ _ _ _ _
                 (readExact_short size (drop off v)
                    ltac:(rewrite length_drop; lia)));
      split; [reflexivity | apply same_failure_eof; assumption]
  end.

Lemma simulates_readU8 : simulates same_byte JS._readU8 Go.readU8.
Proof.
  intros [v off]. js_reader.
  destruct (Nat.ltb_spec (length v) (off + 1)) as [Hout | Hin].
  - unfold Go.readU8. short_read 1%nat.
  - rewrite (drop_cons_nth v off) by lia. rewrite readU8_cons.
    cbn [JS.view JS.offset Go.reader Go.NewRTSParser]. split; [ | split].
    + exists (nth off v Byte.x00). auto.
    + reflexivity.
    + f_equal. lia.
Qed.

Lemma simulates_readU16 : simulates eq JS._readU16 Go.readU16.
Proof.
  intros [v off]. js_reader.
  destruct (Nat.ltb_spec (length v) (off + 2)) as [Hout | Hin].
  - unfold Go.readU16. short_read 2%nat.
  - rewrite (drop_cons_nth v off), (drop_cons_nth v (S off)) by lia.
    rewrite readU16_cons.
    cbn [JS.view JS.offset Go.reader Go.NewRTSParser]. split; [ | split].
    + unfold JS.getUint16, JS.getUint8, le16. rewrite Nat.add_1_r. reflexivity.
    + reflexivity.
    + f_equal. lia.
Qed.

Lemma simulates_readU32 : simulates eq JS._readU32 Go.readU32.
Proof.
  intros [v off]. js_reader.
  destruct (Nat.ltb_spec (length v) (off + 4)) as [Hout | Hin].
  - unfold Go.readU32. short_read 4%nat.
  - rewrite (drop_cons_nth v off), (drop_cons_nth v (S off)),
      (drop_cons_nth v (S (S off))), (drop_cons_nth v (S (S (S off)))) by lia.
    rewrite readU32_cons.
    cbn [JS.view JS.offset Go.reader Go.NewRTSParser]. split; [ | split].
    + unfold JS.getUint32, JS.getUint8, le32, le24, le16.
      replace (off + 1)%nat with (S off) by lia.
      replace (off + 2)%nat with (S (S off)) by lia.
      replace (off + 3)%nat with (S (S (S off))) by lia. reflexivity.
    + reflexivity.
    + f_equal. lia.
Qed.

Lemma simulates_readTime40 : simulates eq JS._readTime40 Go.readTime40.
Proof.
  intros [v off]. js_reader.
  destruct (Nat.ltb_spec (length v) (off + 5)) as [Hout | Hin].
  - unfold Go.readTime40. short_read 5%nat.
  - rewrite (drop_cons_nth v off), (drop_cons_nth v (S off)),
      (drop_cons_nth v (S (S off))), (drop_cons_nth v (S (S (S off)))),
      (drop_cons_nth v (S (S (S (S off))))) by lia.
    rewrite readTime40_cons.
    cbn [JS.view JS.offset Go.reader Go.NewRTSParser]. split; [ | split].
    + unfold JS.getUint32, JS.getUint8.
      replace (off + 1)%nat with (S off) by lia.
      replace (off + 2)%nat with (S (S off)) by lia.
      replace (off + 3)%nat with (S (S (S off))) by lia.
      replace (off + 4)%nat with (S (S (S (S off)))) by lia.
      set (b0 := nth off v Byte.x00). set (b1 := nth (S off) v Byte.x00).
      set (b2 := nth (S (S off)) v Byte.x00).
      set (b3 := nth (S (S (S off))) v Byte.x00).
      set (b4 := nth (S (S (S (S off)))) v Byte.x00).
      change (u8 b0 + 2 ^ 8 * u8 b1 + 2 ^ 16 * u8 b2 + 2 ^ 24 * u8 b3)
        with (le32 b0 b1 b2 b3).
      pose proof (le32_range b0 b1 b2 b3).
      rewrite Z.shiftl_mul_pow2, Z.lor_comm, lor_disjoint by lia.
      replace (le32 b0 b1 b2 b3 + u8 b4 * 2 ^ 32) with (le40 b0 b1 b2 b3 b4)
        by (unfold le40; lia).
      rewrite sign_test_bit39, Z.shiftl_1_l. reflexivity.
    + reflexivity.
    + f_equal. lia.
Qed.

Lemma u24_value (b0 b1 b2 : byte) :
  Z.lor (Z.lor (at_ [b0; b1; b2] 0) (shl32 (at_ [b0; b1; b2] 1) 8))
        (shl32 (at_ [b0; b1; b2] 2) 16)
  = le24 b0 b1 b2.
Proof.
  unfold at_, le24, le16. simpl nth.
  pose proof (u8_range b0). pose proof (u8_range b1). pose proof (u8_range b2).
  rewrite (shl32_small (u8 b1) 8), (shl32_small (u8 b2) 16) by lia.
  rewrite (lor_disjoint (u8 b0)) by lia.
  rewrite (lor_disjoint (u8 b0 + _)) by lia. lia.
Qed.

Lemma js_u24_value (b0 b1 b2 : byte) :
  js_or (js_or (u8 b0) (js_shl (u8 b1) 8)) (js_shl (u8 b2) 16) = le24 b0 b1 b2.
Proof.
  unfold le24, le16.
  pose proof (u8_range b0). pose proof (u8_range b1). pose proof (u8_range b2).
  rewrite (js_shl_small (u8 b1) 8), (js_shl_small (u8 b2) 16) by lia.
  rewrite (js_or_disjoint (u8 b0)) by lia.
  rewrite (js_or_disjoint (u8 b0 + _)) by lia. lia.
Qed.

(** The three payload bytes after the marker [0xFE]. *)
Lemma simulates_u24 :
  simulates eq
    (do _ <- JS._checkBounds 3 ;
     do b0 <- JS.this (fun s => JS.getUint8 (JS.view s) (JS.offset s)) ;
     do b1 <- JS.this (fun s => JS.getUint8 (JS.view s) (JS.offset s + 1)) ;
     do b2 <- JS.this (fun s => JS.getUint8 (JS.view s) (JS.offset s + 2)) ;
     do _ <- JS.advance 3 ;
     ret (js_or (js_or b0 (js_shl b1 8)) (js_shl b2 16)))
    (do buf <- Go.readExact 3 ;
     let val := Z.lor (Z.lor (at_ buf 0) (shl32 (at_ buf 1) 8))
                      (shl32 (at_ buf 2) 16) in
     ret val).
Proof.
  intros [v off].
  match goal with
  | |- context [bind (Go.readExact 3) ?k] => set (mg := bind (Go.readExact 3) k)
  end.
  js_reader. subst mg.
  destruct (Nat.ltb_spec (length v) (off + 3)) as [Hout | Hin].
  - short_read 3%nat.
  - rewrite (drop_cons_nth v off), (drop_cons_nth v (S off)),
      (drop_cons_nth v (S (S off))) by lia.
    set (b0 := nth off v Byte.x00). set (b1 := nth (S off) v Byte.x00).
    set (b2 := nth (S (S off)) v Byte.x00).
    rewrite (bind_Ok _ _ _ _ _
               (readExact_app [b0; b1; b2] (drop (S (S (S off))) v))).
    unfold ret. rewrite u24_value.
    cbn [JS.view JS.offset Go.reader Go.NewRTSParser]. split; [ | split].
    + unfold JS.getUint8.
      replace (off + 1)%nat with (S off) by lia.
      replace (off + 2)%nat with (S (S off)) by lia.
      apply js_u24_value.
    + reflexivity.
    + f_equal. lia.
Qed.

(** *** The field and record decoders *)

Lemma simulates_readVarInt : simulates eq JS._readVarInt Go.readVarInt.
Proof.
  unfold JS._readVarInt, Go.readVarInt.
  apply (simulates_bind same_byte); [apply simulates_readU8 | ].
  intros a b (x & -> & ->).
  apply (simulates_bind eq).
  - destruct (u8 x <=? 252); [apply simulates_ret; reflexivity | ].
    destruct (u8 x =? 253); [apply simulates_ret_r, simulates_readU16 | ].
    destruct (u8 x =? 254); [apply simulates_u24 | ].
    apply simulates_ret. reflexivity.
  - intros rawVal ? <-. apply simulates_ret. reflexivity.
Qed.

Lemma simulates_readIntensityAlert :
  simulates eq JS._readIntensityAlert Go.readIntensityAlert.
Proof.
  unfold JS._readIntensityAlert, Go.readIntensityAlert.
  apply (simulates_bind same_byte); [apply simulates_readU8 | ].
  intros a b (x & -> & ->). cbv zeta.
  apply simulates_ret. rewrite round_station_agree, alert_agree. reflexivity.
Qed.

Lemma filled_push {A B} (f : A -> B) (n i : nat) lj lg (x : A) :
  (i < n)%nat -> filled f n i lj lg ->
  filled f n (S i) (lj ++ [x]) (<[i := f x]> lg).
Proof.
  intros Hi (Hn & Hlen & Htake). unfold filled.
  rewrite length_insert, length_app, map_app. simpl.
  split; [exact Hn | ]. split; [lia | ].
  rewrite (take_S_r _ i (f x)) by (apply list_lookup_insert_eq; lia).
  rewrite take_insert_ge by lia. rewrite Htake. reflexivity.
Qed.

Lemma filled_all {A B} (f : A -> B) (n : nat) lj lg :
  filled f n n lj lg -> lg = map f lj.
Proof.
  intros (Hn & _ & Htake). rewrite <- Htake. symmetry. apply take_ge. lia.
Qed.

Lemma simulates_station_body (n i : nat) (lj : list JS.Station) (lg : list Go.Station) :
  (i < n)%nat -> filled to_Go_station n i lj lg ->
  simulates (filled to_Go_station n (S i))
    (do id <- JS._readU32 ;
     do pga <- JS._readVarInt ;
     do pgv <- JS._readVarInt ;
     do '(intensity, isAlert) <- JS._readIntensityAlert ;
     ret (lj ++ [ {| JS.id := id; JS.pga := pga; JS.pgv := pgv;
                     JS.intensity := intensity; JS.isAlert := isAlert |} ]))
    (do st <- Go.readStation ; ret (<[i := st]> lg)).
Proof.
  intros Hi Hfilled. unfold Go.readStation.
  apply simulates_assoc, (simulates_bind eq); [apply simulates_readU32 | ].
  intros id ? <-.
  apply simulates_assoc, (simulates_bind eq); [apply simulates_readVarInt | ].
  intros pga ? <-.
  apply simulates_assoc, (simulates_bind eq); [apply simulates_readVarInt | ].
  intros pgv ? <-.
  apply simulates_assoc, (simulates_bind eq); [apply simulates_readIntensityAlert | ].
  intros [intensity isAlert] ? <-.
  apply simulates_ret_l, simulates_ret.
  exact (filled_push to_Go_station n i lj lg _ Hi Hfilled).
Qed.

Lemma simulates_area_body (n i : nat) (lj : list JS.AreaIntensity)
    (lg : list Go.AreaIntensity) :
  (i < n)%nat -> filled to_Go_area n i lj lg ->
  simulates (filled to_Go_area n (S i))
    (do code <- JS._readU16 ;
     do rawI <- JS._readU8 ;
     let intensity := (float64_of_Z rawI / 10 - JS.INTENSITY_OFFSET)%float in
     let intensity := (Math_round (intensity * 10) / 10)%float in
     ret (lj ++ [ {| JS.code := code; JS.areaIntensity_intensity := intensity |} ]))
    (do a <- Go.readAreaIntensity ; ret (<[i := a]> lg)).
Proof.
  intros Hi Hfilled. unfold Go.readAreaIntensity.
  apply simulates_assoc, (simulates_bind eq); [apply simulates_readU16 | ].
  intros code ? <-.
  apply simulates_assoc, (simulates_bind same_byte); [apply simulates_readU8 | ].
  intros a b (x & -> & ->). cbv zeta.
  apply simulates_ret_l, simulates_ret.
  rewrite round_area_agree.
  exact (filled_push to_Go_area n i lj lg _ Hi Hfilled).
Qed.

(** *** The whole decode *)

(** On every input the JavaScript decoder and the Go decoder both return
    the same document, or both fail with the same failure. *)
Theorem parse_simulates_Parse :
  simulates (fun jd gd => to_Go jd = gd) JS.parse Go.parseM.
Proof.
  unfold JS.parse, Go.parseM.
  apply (simulates_bind same_byte); [apply simulates_readU8 | ].
  intros a b (v & -> & ->).
  change JS.SUPPORTED_VERSION with Go.SupportedVersion.
  destruct (negb (u8 v =? Go.SupportedVersion)).
  { intros s. split; [reflexivity | ]. right. exists (u8 v). auto. }
  apply (simulates_bind eq); [apply simulates_readTime40 | ].
  intros timestampMs ? <-.
  apply (simulates_bind eq); [apply simulates_readU16 | ].
  intros stationCount ? <-.
  apply (simulates_bind eq); [apply simulates_readU16 | ].
  intros intCount ? <-.
  apply (simulates_bind eq); [apply simulates_readU16 | ].
  intros reserved ? <-. cbv zeta. cbn [JS.stationCount JS.intCount].
  apply (simulates_bind
           (filled to_Go_station (Z.to_nat stationCount) (Z.to_nat stationCount))).
  { apply simulates_forRange.
    - intros i lj lg Hi Hfilled. apply simulates_station_body; assumption.
    - reflexivity.
    - split; [apply length_replicate | split; reflexivity]. }
  intros stations gstations Hst.
  apply (simulates_bind
           (filled to_Go_area (Z.to_nat intCount) (Z.to_nat intCount))).
  { apply simulates_forRange.
    - intros i lj lg Hi Hfilled. apply simulates_area_body; assumption.
    - reflexivity.
    - split; [apply length_replicate | split; reflexivity]. }
  intros areas gareas Har.
  apply simulates_ret. unfold to_Go. cbn.
  rewrite (filled_all _ _ _ _ Hst), (filled_all _ _ _ _ Har). reflexivity.
Qed.

(** The timestamp is a safe integer of JavaScript: the conversion by
    [Number] loses nothing. *)
Lemma timestamp_safe_integer (b0 b1 b2 b3 b4 : byte) :
  0 < Go.Epoch + sext40 (le40 b0 b1 b2 b3 b4) < 2 ^ 53.
Proof.
  pose proof (sext40_range _ (le40_range b0 b1 b2 b3 b4)). unfold Go.Epoch. lia.
Qed.

End TwoDecoders.

(** ** The properties of the format description *)

Section Claims.

Import Go.

Lemma u8_inj (x y : byte) : u8 x = u8 y -> x = y.
Proof.
  unfold u8. intros H. apply N2Z.inj in H.
  pose proof (Byte.of_to_N x) as Hx. rewrite H, Byte.of_to_N in Hx.
  congruence.
Qed.

Lemma unsupported_version_inj (v1 v2 : byte) :
  unsupported_version v1 = unsupported_version v2 -> v1 = v2.
Proof.
  unfold unsupported_version. intros H. injection H as H.
  apply u8_inj. apply (inj (pretty : Z -> string)).
  exact (String.app_inj _ _ _ H).
Qed.

Lemma Some_eq_inv {A} (x y : A) : Some x = Some y -> x = y.
Proof. intros H. injection H as H. exact H. Qed.

(** Two floats with different IEEE descriptions are different. *)
Lemma float_neq (x y : float) : Prim2SF x <> Prim2SF y -> x <> y.
Proof. intros H ->. apply H. reflexivity. Qed.

(** The raw byte of an area record can be read back from its intensity. *)
Lemma area_intensity_raw (raw : byte) :
  Z_of_float (tenths (u8 raw - 30) * 10)%float + 30 = u8 raw.
Proof. destruct raw; vm_compute; reflexivity. Qed.

Lemma readAreaIntensity_cons c0 c1 raw rest :
  readAreaIntensity (NewRTSParser (c0 :: c1 :: raw :: rest))
  = (Ok {| Code := le16 c0 c1;
           AreaIntensity_Intensity := tenths (u8 raw - 30) |},
     NewRTSParser rest).
Proof.
  unfold readAreaIntensity.
  rewrite (bind_Ok _ _ _ _ _ (readU16_cons c0 c1 (raw :: rest))).
  rewrite (bind_Ok _ _ _ _ _ (readU8_cons raw rest)).
  unfold ret. rewrite <- area_intensity_tenths. reflexivity.
Qed.

(** C1: when [Parse] succeeds, the station list has [header.stationCount]
    elements and the area list has [header.intCount] elements, and both
    lists hold the records in on-wire order: read one after the other from
    the twelfth byte on, stations first. When the bytes after the header
    cannot supply the announced number of records, [Parse] returns an error
    and no document; so it does when they are fewer than 7 bytes for each
    station and 3 for each area. *)
Theorem Parse_counts_and_order :
  (forall b d q,
     Parse (NewRTSParser b) = ((Some d, None), q) ->
     Z.of_nat (length (Stations d)) = StationCount (Header d)
     /\ Z.of_nat (length (AreaIntensities d)) = IntCount (Header d)
     /\ exists mid,
          reads_in_order readStation (drop 12 b) (Stations d) mid
          /\ reads_in_order readAreaIntensity mid (AreaIntensities d) (reader q))
  /\ (forall v t0 t1 t2 t3 t4 s0 s1 i0 i1 r0 r1 body,
        ~ (exists sts mid ars rest,
             reads_in_order readStation body sts mid
             /\ Z.of_nat (length sts) = le16 s0 s1
             /\ reads_in_order readAreaIntensity mid ars rest
             /\ Z.of_nat (length ars) = le16 i0 i1) ->
        exists e q,
          Parse (NewRTSParser
                   (v :: t0 :: t1 :: t2 :: t3 :: t4 :: s0 :: s1 :: i0 :: i1
                      :: r0 :: r1 :: body))
          = ((None, Some e), q))
  /\ (forall v t0 t1 t2 t3 t4 s0 s1 i0 i1 r0 r1 body,
        Z.of_nat (length body) < 7 * le16 s0 s1 + 3 * le16 i0 i1 ->
        exists e q,
          Parse (NewRTSParser
                   (v :: t0 :: t1 :: t2 :: t3 :: t4 :: s0 :: s1 :: i0 :: i1
                      :: r0 :: r1 :: body))
          = ((None, Some e), q)).
Proof.
  assert (forall v t0 t1 t2 t3 t4 s0 s1 i0 i1 r0 r1 body,
            ~ (exists sts mid ars rest,
                 reads_in_order readStation body sts mid
                 /\ Z.of_nat (length sts) = le16 s0 s1
                 /\ reads_in_order readAreaIntensity mid ars rest
                 /\ Z.of_nat (length ars) = le16 i0 i1) ->
            exists e q,
              Parse (NewRTSParser
                       (v :: t0 :: t1 :: t2 :: t3 :: t4 :: s0 :: s1 :: i0 :: i1
                          :: r0 :: r1 :: body))
              = ((None, Some e), q)) as Hfail.
  { intros v t0 t1 t2 t3 t4 s0 s1 i0 i1 r0 r1 body Hno.
    match goal with |- context [Parse ?p] => set (p0 := p) end.
    destruct (parseM p0) as [[d | e] q] eqn:Hp0.
    - exfalso. apply Hno. apply parseM_inv_Ok in Hp0
        as (v' & t0' & t1' & t2' & t3' & t4' & s0' & s1' & i0' & i1' & r0' & r1'
            & body' & mid & Hb & _ & _ & Hs & Hrs & Ha & Hra).
      simpl in Hb. injection Hb as -> -> -> -> -> -> -> -> -> -> -> -> ->.
      pose proof (le16_range s0' s1'). pose proof (le16_range i0' i1').
      exists (Stations d), mid, (AreaIntensities d), (reader q).
      repeat split; try assumption; lia.
    - exists e, q. apply Parse_Err. exact Hp0. }
  split; [ | split; [exact Hfail | ]].
  - intros b d q H. apply Parse_Some in H as [H _].
    pose proof (parseM_complete _ _ _ H) as [Hs Ha].
    apply parseM_inv_Ok in H
      as (v & t0 & t1 & t2 & t3 & t4 & s0 & s1 & i0 & i1 & r0 & r1 & body & mid
          & Hb & _ & _ & _ & Hrs & _ & Hra).
    simpl in Hb. subst b.
    split; [exact Hs | ]. split; [exact Ha | ].
    exists mid. split; [exact Hrs | exact Hra].
  - intros v t0 t1 t2 t3 t4 s0 s1 i0 i1 r0 r1 body Hshort.
    apply Hfail. intros (sts & mid & ars & rest & Hrs & Hs & Hra & Ha).
    destruct (reads_in_order_length _ _ _ consumes_readStation _ _ _ Hrs)
      as (pre1 & -> & H1 & _).
    destruct (reads_in_order_length _ _ _ consumes_readAreaIntensity _ _ _ Hra)
      as (pre2 & -> & H2 & _).
    rewrite !length_app in Hshort. lia.
Qed.

Lemma Parse_counts_and_order_witness :
  (Z.of_nat (length (Stations sample_document)) = StationCount (Header sample_document)
   /\ Z.of_nat (length (AreaIntensities sample_document))
      = IntCount (Header sample_document)
   /\ exists mid,
        reads_in_order readStation (drop 12 sample_capture)
          (Stations sample_document) mid
        /\ reads_in_order readAreaIntensity mid
             (AreaIntensities sample_document) (reader (NewRTSParser [])))
  /\ exists e q, Parse (NewRTSParser (take 21 sample_capture)) = ((None, Some e), q).
Proof.
  split.
  - exact (proj1 Parse_counts_and_order sample_capture sample_document
             (NewRTSParser []) sample_capture_parses).
  - apply (proj2 (proj2 Parse_counts_and_order)
             Byte.x01 Byte.x00 Byte.x00 Byte.x00 Byte.x00 Byte.x00
             Byte.x01 Byte.x00 Byte.x01 Byte.x00 Byte.x07 Byte.x00
             (take 9 (drop 12 sample_capture))).
    vm_compute. reflexivity.
Defined.

(** C2: [readVarInt] on a marker byte [0x00 .. 0xFC] returns the marker
    divided by 100; on [0xFD] the following little-endian 16-bit value
    divided by 100; on [0xFE] the following little-endian 24-bit value
    divided by 100; on [0xFF] it returns 0 and consumes the marker only.
    [FD 96 00] (150) decodes to 1.5, [32] (50) to 0.5 and [FE 40 42 0F]
    (1000000) to 10000. *)
Theorem readVarInt_decodes :
  (forall m rest,
     u8 m <= 0xFC ->
     readVarInt (NewRTSParser (m :: rest))
     = (Ok (float64_of_Z (u8 m) / 100)%float, NewRTSParser rest))
  /\ (forall lo hi rest,
        readVarInt (NewRTSParser (Byte.xfd :: lo :: hi :: rest))
        = (Ok (float64_of_Z (le16 lo hi) / 100)%float, NewRTSParser rest))
  /\ (forall b0 b1 b2 rest,
        readVarInt (NewRTSParser (Byte.xfe :: b0 :: b1 :: b2 :: rest))
        = (Ok (float64_of_Z (le24 b0 b1 b2) / 100)%float, NewRTSParser rest))
  /\ (forall rest,
        readVarInt (NewRTSParser (Byte.xff :: rest)) = (Ok 0%float, NewRTSParser rest))
  /\ readVarInt (NewRTSParser [Byte.xfd; Byte.x96; Byte.x00])
     = (Ok 1.5%float, NewRTSParser [])
  /\ readVarInt (NewRTSParser [Byte.x32]) = (Ok 0.5%float, NewRTSParser [])
  /\ readVarInt (NewRTSParser [Byte.xfe; Byte.x40; Byte.x42; Byte.x0f])
     = (Ok 10000%float, NewRTSParser []).
Proof.
  split; [exact readVarInt_byte | ].
  split; [exact readVarInt_u16 | ].
  split; [exact readVarInt_u24 | ].
  split; [exact readVarInt_reserved | ].
  repeat split; vm_compute; reflexivity.
Qed.

Lemma readVarInt_decodes_witness :
  readVarInt (NewRTSParser [Byte.x4b; Byte.x2a])
  = (Ok 0.75%float, NewRTSParser [Byte.x2a]).
Proof.
  refine (eq_trans (proj1 readVarInt_decodes Byte.x4b [Byte.x2a] _) _).
  - vm_compute. discriminate.
  - vm_compute. reflexivity.
Defined.

(** C3: [readTime40] takes exactly 5 bytes, combines them little-endian
    into a 40-bit value, reads that value as two's complement (bit 39 set:
    subtract 2^40) and adds the epoch 1767225600000, in exact integer
    arithmetic. Five zero bytes decode to 1767225600000, five [FF] bytes to
    1767225599999; on fewer than 5 bytes the read fails. *)
Theorem readTime40_decodes :
  (forall b0 b1 b2 b3 b4 rest,
     readTime40 (NewRTSParser (b0 :: b1 :: b2 :: b3 :: b4 :: rest))
     = (Ok (1767225600000 + sext40 (le40 b0 b1 b2 b3 b4)), NewRTSParser rest))
  /\ consumes 5 5 readTime40
  /\ (forall bs,
        (length bs < 5)%nat ->
        readTime40 (NewRTSParser bs) = (Err (eof_error bs), NewRTSParser []))
  /\ readTime40 (NewRTSParser [Byte.x00; Byte.x00; Byte.x00; Byte.x00; Byte.x00])
     = (Ok 1767225600000, NewRTSParser [])
  /\ readTime40 (NewRTSParser [Byte.xff; Byte.xff; Byte.xff; Byte.xff; Byte.xff])
     = (Ok 1767225599999, NewRTSParser []).
Proof.
  split; [exact readTime40_cons | ].
  split; [exact consumes_readTime40 | ].
  split.
  { intros bs H. unfold readTime40. apply bind_Err, readExact_short, H. }
  split; rewrite readTime40_cons; reflexivity.
Qed.

Lemma readTime40_decodes_witness :
  readTime40 (NewRTSParser [Byte.x01; Byte.x02])
  = (Err ErrUnexpectedEOF, NewRTSParser []).
Proof.
  refine (proj1 (proj2 (proj2 readTime40_decodes)) [Byte.x01; Byte.x02] _).
  simpl. lia.
Defined.

(** C4: [readIntensityAlert] takes exactly 1 byte; the intensity is
    [(raw & 0x7F) / 10.0 - 3.0] rounded to one decimal with
    [round(x * 10) / 10], rounding half away from zero, which is the float of
    the one-decimal value [((raw & 0x7F) - 30) / 10]; [isAlert] is bit 7 of
    the byte. [0x64] gives 7.0 without alert, [0xE4] gives 7.0 with alert. *)
Theorem readIntensityAlert_decodes :
  (forall raw rest,
     readIntensityAlert (NewRTSParser (raw :: rest))
     = (Ok (round1 (float64_of_Z (Z.land (u8 raw) 0x7F) / 10 - 3)%float,
            Z.testbit (u8 raw) 7),
        NewRTSParser rest))
  /\ (forall raw,
        round1 (float64_of_Z (Z.land (u8 raw) 0x7F) / 10 - 3)%float
        = tenths (Z.land (u8 raw) 0x7F - 30))
  /\ consumes 1 1 readIntensityAlert
  /\ readIntensityAlert (NewRTSParser [Byte.x64])
     = (Ok (7%float, false), NewRTSParser [])
  /\ readIntensityAlert (NewRTSParser [Byte.xe4])
     = (Ok (7%float, true), NewRTSParser []).
Proof.
  split; [exact readIntensityAlert_cons | ].
  split; [exact station_intensity_tenths | ].
  split; [exact consumes_readIntensityAlert | ].
  split; vm_compute; reflexivity.
Qed.

(** C5, as stated: bytes [0x64] and [0xE4] agree on bits 0 to 6, and the
    area records that carry them decode to the intensities 7.0 and 19.8. *)
Lemma area_intensity_low7_only_fails : ~ area_intensity_low7_only.
Proof.
  intros H. specialize (H Byte.x64 Byte.xe4 eq_refl).
  vm_compute in H. apply Some_eq_inv in H.
  revert H. apply float_neq. vm_compute. discriminate.
Qed.

(** C5, amended: the intensity of an area record is computed from all
    eight bits of the raw byte: it is [raw / 10.0 - 3.0] rounded with
    [round(x * 10) / 10], the float of the one-decimal value
    [(raw - 30) / 10]. Every raw byte is accepted, bit 7 is not validated,
    and two different raw bytes, such as two that differ in bit 7 only,
    decode to different intensities. *)
Theorem area_intensity_whole_byte :
  (forall c0 c1 raw rest,
     readAreaIntensity (NewRTSParser (c0 :: c1 :: raw :: rest))
     = (Ok {| Code := le16 c0 c1;
              AreaIntensity_Intensity := round1 (float64_of_Z (u8 raw) / 10 - 3)%float |},
        NewRTSParser rest))
  /\ (forall raw, area_intensity_of raw = Some (tenths (u8 raw - 30)))
  /\ (forall raw1 raw2,
        area_intensity_of raw1 = area_intensity_of raw2 -> raw1 = raw2).
Proof.
  assert (forall raw, area_intensity_of raw = Some (tenths (u8 raw - 30))) as Hof.
  { intros raw. unfold area_intensity_of. rewrite readAreaIntensity_cons. reflexivity. }
  split; [ | split; [exact Hof | ]].
  - intros c0 c1 raw rest. rewrite readAreaIntensity_cons, area_intensity_tenths.
    reflexivity.
  - intros raw1 raw2 H. rewrite !Hof in H. apply Some_eq_inv in H.
    apply u8_inj. rewrite <- (area_intensity_raw raw1), <- (area_intensity_raw raw2).
    rewrite H. reflexivity.
Qed.

Lemma area_intensity_whole_byte_witness :
  area_intensity_of Byte.x64 <> area_intensity_of Byte.xe4.
Proof.
  intros H. apply (proj2 (proj2 area_intensity_whole_byte)) in H.
  discriminate H.
Defined.

(** C6: when the first byte is not 1, [Parse] fails with the error
    "unsupported RTS version: N", N the decimal value of that byte (so the
    error determines the byte), and the bytes after the first are left in
    the source, unread; when the first byte is 1, [Parse] never returns a
    version error. *)
Theorem Parse_version_check :
  (forall v rest,
     u8 v <> 1 ->
     Parse (NewRTSParser (v :: rest))
     = ((None, Some (Errorf ("unsupported RTS version: " +:+ pretty (u8 v)))),
        NewRTSParser rest))
  /\ (forall v1 v2, unsupported_version v1 = unsupported_version v2 -> v1 = v2)
  /\ (forall v rest msg,
        u8 v = 1 ->
        snd (fst (Parse (NewRTSParser (v :: rest)))) <> Some (Errorf msg)).
Proof.
  split; [ | split; [exact unsupported_version_inj | ]].
  - intros v rest Hv. apply Parse_Err. unfold parseM.
    rewrite (bind_Ok _ _ _ _ _ (readU8_cons v rest)).
    destruct (Z.eqb_spec (u8 v) SupportedVersion) as [Heq | _]; [contradiction | ].
    reflexivity.
  - intros v rest msg Hv H.
    destruct (Parse (NewRTSParser (v :: rest))) as [[d e] q] eqn:E.
    simpl in H. subst e. destruct d as [d | ].
    + apply Parse_Some in E as [_ E]. discriminate E.
    + apply Parse_None, parseM_inv_Err in E
        as [(v' & rest' & Hr & Hv' & _) | ([E | E] & _)]; try discriminate E.
      simpl in Hr. injection Hr as <- _. contradiction.
Qed.

Lemma Parse_version_check_witness :
  Parse (NewRTSParser (Byte.x02 :: drop 1 sample_capture))
  = ((None, Some (Errorf "unsupported RTS version: 2")),
     NewRTSParser (drop 1 sample_capture))
  /\ snd (fst (Parse (NewRTSParser (Byte.x01 :: drop 1 sample_capture))))
     <> Some (Errorf "unsupported RTS version: 1").
Proof.
  split.
  - refine (proj1 Parse_version_check Byte.x02 (drop 1 sample_capture) _).
    vm_compute. discriminate.
  - refine (proj2 (proj2 Parse_version_check) Byte.x01 (drop 1 sample_capture) _ _).
    vm_compute. reflexivity.
Defined.




(** C8: the version byte [01] followed by only 2 bytes of the timestamp
    fails with the end-of-input error [io.ErrUnexpectedEOF] and no document.
    In general [Parse] returns either an error and no document, or a
    document and no error, and then the document is complete: its lists have
    the lengths that its header announces. *)
Theorem Parse_all_or_nothing :
  (forall t0 t1,
     Parse (NewRTSParser [Byte.x01; t0; t1])
     = ((None, Some ErrUnexpectedEOF), NewRTSParser []))
  /\ (forall p,
        (exists e q, Parse p = ((None, Some e), q))
        \/ (exists d q, Parse p = ((Some d, None), q) /\ complete d)).
Proof.
  split.
  - intros t0 t1. apply Parse_Err. unfold parseM.
    rewrite (bind_Ok _ _ _ _ _ (readU8_cons Byte.x01 [t0; t1])).
    change (negb (u8 Byte.x01 =? SupportedVersion)) with false. cbv iota.
    apply bind_Err. unfold readTime40. apply bind_Err.
    apply (readExact_short 5 [t0; t1]). simpl. lia.
  - intros p. destruct (parseM p) as [[d | e] q] eqn:E.
    + right. exists d, q. split; [apply Parse_Ok; exact E | ].
      exact (parseM_complete _ _ _ E).
    + left. exists e, q. apply Parse_Err. exact E.
Qed.

(** C10: when [Parse] succeeds on a buffer, it succeeds with the same
    document on that buffer followed by any further bytes, and leaves those
    bytes in the source: nothing after the last area record is read. *)
Theorem Parse_ignores_trailing_bytes :
  forall b extra d q,
    Parse (NewRTSParser b) = ((Some d, None), q) ->
    Parse (NewRTSParser (b ++ extra))
    = ((Some d, None), NewRTSParser (reader q ++ extra)).
Proof.
  intros b extra d q H. apply Parse_Some in H as [H _].
  apply Parse_Ok. exact (extends_parseM _ _ _ extra H).
Qed.

Lemma Parse_ignores_trailing_bytes_witness :
  Parse (NewRTSParser (sample_capture ++ [Byte.xff; Byte.x09]))
  = ((Some sample_document, None), NewRTSParser [Byte.xff; Byte.x09]).
Proof.
  exact (Parse_ignores_trailing_bytes sample_capture [Byte.xff; Byte.x09]
           sample_document (NewRTSParser []) sample_capture_parses).
Defined.

End Claims.

(** ** More about the Go decoder *)

Section MoreGo.

Import Go.

(** Every value read in order has a property that each single read
    guarantees. *)
Lemma reads_in_order_Forall {A} (rd : M A) (P : A -> Prop) :
  (forall p x q, rd p = (Ok x, q) -> P x) ->
  forall bs xs bs', reads_in_order rd bs xs bs' -> Forall P xs.
Proof.
  intros Hrd bs xs bs' H. induction H as [bs | bs x bs1 xs bs2 Hx _ IH].
  - constructor.
  - constructor; [exact (Hrd _ _ _ Hx) | exact IH].
Qed.

(** The filling loop, forwards: records that can be read in order are the
    ones that the loop stores, in slots [i] onwards. *)
Lemma forRange_fill_reads {A} (rd : M A) :
  forall bs xs bs',
    reads_in_order rd bs xs bs' ->
    forall i (s : list A),
      (i + length xs <= length s)%nat ->
      forRange (length xs) i (fun i s => do x <- rd ; ret (<[i := x]> s)) s
        (NewRTSParser bs)
      = (Ok (take i s ++ xs ++ drop (i + length xs) s), NewRTSParser bs').
Proof.
  intros bs xs bs' H. induction H as [bs | bs x bs1 xs bs2 Hx _ IH]; intros i s Hlen.
  - simpl. unfold ret. rewrite Nat.add_0_r, take_drop. reflexivity.
  - simpl in Hlen. simpl forRange.
    rewrite (bind_Ok _ _ _ (<[i := x]> s) (NewRTSParser bs1)).
    + rewrite IH by (rewrite length_insert; lia).
      replace (i + length (x :: xs))%nat with (S i + length xs)%nat by (simpl; lia).
      rewrite (take_S_r _ i x) by (apply list_lookup_insert_eq; lia).
      rewrite take_insert_ge by lia.
      rewrite drop_insert_lt by lia.
      rewrite <- app_assoc. reflexivity.
    + rewrite (bind_Ok _ _ _ _ _ Hx). reflexivity.
Qed.

Lemma forRange_make_reads {A} (rd : M A) (zero : A) bs xs bs' :
  reads_in_order rd bs xs bs' ->
  forRange (length xs) 0 (fun i s => do x <- rd ; ret (<[i := x]> s))
    (replicate (length xs) zero) (NewRTSParser bs)
  = (Ok xs, NewRTSParser bs').
Proof.
  intros H. rewrite (forRange_fill_reads rd _ _ _ H)
    by (rewrite length_replicate; lia).
  rewrite take_0, drop_ge, app_nil_r by (rewrite length_replicate; lia).
  reflexivity.
Qed.

Lemma readU32_inv_Ok p v q :
  readU32 p = (Ok v, q) ->
  exists b0 b1 b2 b3,
    reader p = b0 :: b1 :: b2 :: b3 :: reader q /\ v = le32 b0 b1 b2 b3.
Proof.
  intros H. destruct (consumes_readU32 _ _ _ H) as (pre & Hp & H1 & H2).
  destruct pre as [| b0 [| b1 [| b2 [| b3 [| ? ?]]]]]; simpl in *; try lia.
  exists b0, b1, b2, b3. split; [exact Hp | ].
  rewrite <- (parser_eta p), Hp, readU32_cons in H. congruence.
Qed.

Lemma readVarInt_inv_Ok p v q :
  readVarInt p = (Ok v, q) ->
  exists n, 0 <= n < 2 ^ 24 /\ v = (float64_of_Z n / 100)%float.
Proof.
  unfold readVarInt. intros H.
  apply bind_inv_Ok in H as (marker & p1 & Hm & H).
  apply readU8_inv_Ok in Hm as (x & _ & ->).
  apply bind_inv_Ok in H as (rawVal & p2 & Hraw & H).
  injection H as <- _. exists rawVal. split; [ | reflexivity].
  pose proof (u8_range x).
  destruct (u8 x <=? 252); [injection Hraw as <- _; lia | ].
  destruct (u8 x =? 253).
  { apply bind_inv_Ok in Hraw as (val & p3 & Hval & Hraw).
    injection Hraw as <- _.
    apply readU16_inv_Ok in Hval as (b0 & b1 & _ & ->).
    pose proof (le16_range b0 b1). lia. }
  destruct (u8 x =? 254); [ | injection Hraw as <- _; lia].
  apply bind_inv_Ok in Hraw as (buf & p3 & Hbuf & Hraw).
  injection Hraw as <- _.
  apply readExact_inv_Ok in Hbuf as [_ Hlen].
  destruct buf as [| b0 [| b1 [| b2 [| ? ?]]]]; try discriminate Hlen.
  rewrite u24_value. apply le24_range.
Qed.

Lemma readIntensityAlert_inv_Ok p v q :
  readIntensityAlert p = (Ok v, q) ->
  exists raw,
    reader p = raw :: reader q
    /\ v = (tenths (Z.land (u8 raw) 0x7F - 30), Z.testbit (u8 raw) 7).
Proof.
  intros H. destruct (consumes_readIntensityAlert _ _ _ H) as (pre & Hp & H1 & H2).
  destruct pre as [| raw [| ? ?]]; cbn [length app] in *; try lia.
  exists raw. split; [exact Hp | ].
  rewrite <- (parser_eta p), Hp, readIntensityAlert_cons in H.
  rewrite station_intensity_tenths in H. congruence.
Qed.

Lemma readAreaIntensity_inv_Ok p a q :
  readAreaIntensity p = (Ok a, q) ->
  exists c0 c1 raw,
    reader p = c0 :: c1 :: raw :: reader q
    /\ a = {| Code := le16 c0 c1;
              AreaIntensity_Intensity := tenths (u8 raw - 30) |}.
Proof.
  intros H. destruct (consumes_readAreaIntensity _ _ _ H) as (pre & Hp & H1 & H2).
  destruct pre as [| c0 [| c1 [| raw [| ? ?]]]]; simpl in *; try lia.
  exists c0, c1, raw. split; [exact Hp | ].
  rewrite <- (parser_eta p), Hp, readAreaIntensity_cons in H. congruence.
Qed.

(** What a decoded station record is made of. *)
Lemma readStation_inv_Ok p st q :
  readStation p = (Ok st, q) ->
  exists b0 b1 b2 b3 n1 n2 raw,
    ID st = le32 b0 b1 b2 b3
    /\ 0 <= n1 < 2 ^ 24 /\ PGA st = (float64_of_Z n1 / 100)%float
    /\ 0 <= n2 < 2 ^ 24 /\ PGV st = (float64_of_Z n2 / 100)%float
    /\ Intensity st = tenths (Z.land (u8 raw) 0x7F - 30)
    /\ IsAlert st = Z.testbit (u8 raw) 7.
Proof.
  unfold readStation. intros H.
  apply bind_inv_Ok in H as (id & p1 & Hid & H).
  apply readU32_inv_Ok in Hid as (b0 & b1 & b2 & b3 & _ & ->).
  apply bind_inv_Ok in H as (pga & p2 & Hpga & H).
  apply readVarInt_inv_Ok in Hpga as (n1 & Hn1 & ->).
  apply bind_inv_Ok in H as (pgv & p3 & Hpgv & H).
  apply readVarInt_inv_Ok in Hpgv as (n2 & Hn2 & ->).
  apply bind_inv_Ok in H as ([i a] & p4 & Hia & H).
  apply readIntensityAlert_inv_Ok in Hia as (raw & _ & Hv).
  apply (f_equal fst) in H. simpl in H.
  assert (i = tenths (Z.land (u8 raw) 0x7F - 30) /\ a = Z.testbit (u8 raw) 7)
    as [-> ->].
  { split; [exact (f_equal fst Hv) | exact (f_equal snd Hv)]. }
  assert (st = {| ID := le32 b0 b1 b2 b3; PGA := (float64_of_Z n1 / 100)%float;
                  PGV := (float64_of_Z n2 / 100)%float;
                  Intensity := tenths (Z.land (u8 raw) 0x7F - 30);
                  IsAlert := Z.testbit (u8 raw) 7 |}) as ->.
  { unfold ret in H. simpl in H.
    exact (eq_sym (f_equal (fun r => match r with Ok x => x | Err _ => st end) H)). }
  exists b0, b1, b2, b3, n1, n2, raw. simpl. auto 10.
Qed.

(** X1: [readU8], [readU16] and [readU32] return the unsigned
    little-endian value of the next 1, 2 and 4 bytes, a value within the
    range of the type, and leave the bytes that follow; with fewer bytes
    left than the width they fail with the end-of-input error and drain the
    source. *)
Theorem fixed_width_reads_little_endian :
  (forall b0 rest,
     readU8 (NewRTSParser (b0 :: rest)) = (Ok (u8 b0), NewRTSParser rest))
  /\ (forall b0 b1 rest,
        readU16 (NewRTSParser (b0 :: b1 :: rest))
        = (Ok (u8 b0 + 256 * u8 b1), NewRTSParser rest)
        /\ 0 <= u8 b0 + 256 * u8 b1 < 2 ^ 16)
  /\ (forall b0 b1 b2 b3 rest,
        readU32 (NewRTSParser (b0 :: b1 :: b2 :: b3 :: rest))
        = (Ok (u8 b0 + 256 * u8 b1 + 65536 * u8 b2 + 16777216 * u8 b3),
           NewRTSParser rest)
        /\ 0 <= u8 b0 + 256 * u8 b1 + 65536 * u8 b2 + 16777216 * u8 b3 < 2 ^ 32)
  /\ (forall bs,
        (length bs < 1)%nat ->
        readU8 (NewRTSParser bs) = (Err (eof_error bs), NewRTSParser []))
  /\ (forall bs,
        (length bs < 2)%nat ->
        readU16 (NewRTSParser bs) = (Err (eof_error bs), NewRTSParser []))
  /\ (forall bs,
        (length bs < 4)%nat ->
        readU32 (NewRTSParser bs) = (Err (eof_error bs), NewRTSParser [])).
Proof.
  split; [exact readU8_cons | ].
  split.
  { intros b0 b1 rest. rewrite readU16_cons.
    pose proof (le16_range b0 b1). unfold le16 in *.
    split; [do 2 f_equal; lia | lia]. }
  split.
  { intros b0 b1 b2 b3 rest. rewrite readU32_cons.
    pose proof (le32_range b0 b1 b2 b3). unfold le32, le24, le16 in *.
    split; [do 2 f_equal; lia | lia]. }
  split; [ | split]; intros bs H.
  - unfold readU8. apply bind_Err, readExact_short, H.
  - unfold readU16. apply bind_Err, readExact_short, H.
  - unfold readU32. apply bind_Err, readExact_short, H.
Qed.

Lemma fixed_width_reads_little_endian_witness :
  readU16 (NewRTSParser [Byte.x2a]) = (Err ErrUnexpectedEOF, NewRTSParser [])
  /\ readU32 (NewRTSParser []) = (Err EOF, NewRTSParser []).
Proof.
  split.
  - refine (proj1 (proj2 (proj2 (proj2 (proj2 fixed_width_reads_little_endian))))
              [Byte.x2a] _).
    simpl. lia.
  - refine (proj2 (proj2 (proj2 (proj2 (proj2 fixed_width_reads_little_endian))))
              [] _).
    simpl. lia.
Defined.

(** X2: [Parse] succeeds whenever it can: on a source that starts with the
    version byte 1 and eleven header bytes, followed by bytes from which the
    announced number of station records and then the announced number of
    area records can be read in order, it returns the document made of that
    header and those records, and leaves the bytes after the last record. *)
Theorem Parse_succeeds :
  forall t0 t1 t2 t3 t4 s0 s1 i0 i1 r0 r1 body sts mid ars rest,
    reads_in_order readStation body sts mid ->
    Z.of_nat (length sts) = le16 s0 s1 ->
    reads_in_order readAreaIntensity mid ars rest ->
    Z.of_nat (length ars) = le16 i0 i1 ->
    Parse (NewRTSParser
             (Byte.x01 :: t0 :: t1 :: t2 :: t3 :: t4 :: s0 :: s1 :: i0 :: i1
                :: r0 :: r1 :: body))
    = ((Some (document_of (header_of t0 t1 t2 t3 t4 s0 s1 i0 i1 r0 r1) sts ars),
        None),
       NewRTSParser rest).
Proof.
  intros t0 t1 t2 t3 t4 s0 s1 i0 i1 r0 r1 body sts mid ars rest Hs Hls Ha Hla.
  apply Parse_Ok. unfold parseM.
  rewrite (bind_Ok _ _ _ _ _ (readU8_cons Byte.x01 _)).
  change (negb (u8 Byte.x01 =? SupportedVersion)) with false. cbv iota.
  rewrite (bind_Ok _ _ _ _ _ (readTime40_cons t0 t1 t2 t3 t4 _)).
  rewrite (bind_Ok _ _ _ _ _ (readU16_cons s0 s1 _)).
  rewrite (bind_Ok _ _ _ _ _ (readU16_cons i0 i1 _)).
  rewrite (bind_Ok _ _ _ _ _ (readU16_cons r0 r1 _)).
  cbv zeta. rewrite <- Hls, <- Hla, !Nat2Z.id.
  rewrite (bind_Ok _ _ _ _ _ (forRange_make_reads readStation zeroStation _ _ _ Hs)).
  rewrite (bind_Ok _ _ _ _ _
             (forRange_make_reads readAreaIntensity zeroAreaIntensity _ _ _ Ha)).
  unfold ret, document_of, header_of. rewrite Hls, Hla. reflexivity.
Qed.

Lemma Parse_succeeds_witness :
  Parse (NewRTSParser sample_capture)
  = ((Some (document_of
              (header_of Byte.x00 Byte.x00 Byte.x00 Byte.x00 Byte.x00
                 Byte.x01 Byte.x00 Byte.x01 Byte.x00 Byte.x07 Byte.x00)
              (Stations sample_document) (AreaIntensities sample_document)),
      None),
     NewRTSParser []).
Proof.
  apply (Parse_succeeds Byte.x00 Byte.x00 Byte.x00 Byte.x00 Byte.x00
           Byte.x01 Byte.x00 Byte.x01 Byte.x00 Byte.x07 Byte.x00
           (drop 12 sample_capture) (Stations sample_document)
           (drop 21 sample_capture) (AreaIntensities sample_document) []).
  - eapply rio_cons; [vm_compute; reflexivity | apply rio_nil].
  - reflexivity.
  - eapply rio_cons; [vm_compute; reflexivity | apply rio_nil].
  - reflexivity.
Defined.

(** X3: a successful [Parse] takes a prefix of the source whose length is
    12 bytes of version and header, 7 to 13 bytes for each announced station
    record and 3 bytes for each announced area record. *)
Theorem Parse_consumed_length :
  forall b d q,
    Parse (NewRTSParser b) = ((Some d, None), q) ->
    exists pre,
      b = pre ++ reader q
      /\ 12 + 7 * StationCount (Header d) + 3 * IntCount (Header d)
         <= Z.of_nat (length pre)
      /\ Z.of_nat (length pre)
         <= 12 + 13 * StationCount (Header d) + 3 * IntCount (Header d).
Proof.
  intros b d q H. apply Parse_Some in H as [H _].
  pose proof (parseM_complete _ _ _ H) as [Hcs Hca].
  apply parseM_inv_Ok in H
    as (v & t0 & t1 & t2 & t3 & t4 & s0 & s1 & i0 & i1 & r0 & r1 & body & mid
        & Hb & _ & _ & _ & Hrs & _ & Hra).
  simpl in Hb. subst b.
  destruct (reads_in_order_length _ _ _ consumes_readStation _ _ _ Hrs)
    as (pre1 & -> & H1 & H1').
  destruct (reads_in_order_length _ _ _ consumes_readAreaIntensity _ _ _ Hra)
    as (pre2 & -> & H2 & H2').
  exists ([v; t0; t1; t2; t3; t4; s0; s1; i0; i1; r0; r1] ++ pre1 ++ pre2).
  split; [rewrite <- !app_assoc; reflexivity | ].
  rewrite !length_app. simpl length. lia.
Qed.

Lemma Parse_consumed_length_witness :
  exists pre,
    sample_capture = pre ++ reader (NewRTSParser [])
    /\ 12 + 7 * StationCount (Header sample_document)
          + 3 * IntCount (Header sample_document)
       <= Z.of_nat (length pre)
    /\ Z.of_nat (length pre)
       <= 12 + 13 * StationCount (Header sample_document)
            + 3 * IntCount (Header sample_document).
Proof.
  exact (Parse_consumed_length sample_capture sample_document (NewRTSParser [])
           sample_capture_parses).
Defined.

(** X4: the header of a returned document has version 1, a timestamp
    within 2^39 milliseconds of the epoch 1767225600000 (so positive and
    below 2^53), and counts and a reserved field between 0 and 65535; the
    reserved field is the little-endian value of bytes 10 and 11 of the
    source, whatever they are. *)
Theorem Parse_header_ranges :
  forall b d q,
    Parse (NewRTSParser b) = ((Some d, None), q) ->
    Version (Header d) = 1
    /\ 1767225600000 - 2 ^ 39 <= TimestampMs (Header d) < 1767225600000 + 2 ^ 39
    /\ 0 < TimestampMs (Header d) < 2 ^ 53
    /\ 0 <= StationCount (Header d) < 65536
    /\ 0 <= IntCount (Header d) < 65536
    /\ Reserved (Header d) = at_ b 10 + 256 * at_ b 11.
Proof.
  intros b d q H. apply Parse_Some in H as [H _].
  apply parseM_inv_Ok in H
    as (v & t0 & t1 & t2 & t3 & t4 & s0 & s1 & i0 & i1 & r0 & r1 & body & mid
        & Hb & _ & Hh & _).
  simpl in Hb. subst b. rewrite Hh. unfold header_of, at_. simpl.
  pose proof (sext40_range _ (le40_range t0 t1 t2 t3 t4)).
  pose proof (le16_range s0 s1). pose proof (le16_range i0 i1).
  unfold Epoch, le16 in *. repeat split; lia.
Qed.

Lemma Parse_header_ranges_witness :
  Version (Header sample_document) = 1
  /\ 1767225600000 - 2 ^ 39 <= TimestampMs (Header sample_document)
     < 1767225600000 + 2 ^ 39
  /\ 0 < TimestampMs (Header sample_document) < 2 ^ 53
  /\ 0 <= StationCount (Header sample_document) < 65536
  /\ 0 <= IntCount (Header sample_document) < 65536
  /\ Reserved (Header sample_document)
     = at_ sample_capture 10 + 256 * at_ sample_capture 11.
Proof.
  exact (Parse_header_ranges sample_capture sample_document (NewRTSParser [])
           sample_capture_parses).
Defined.

Lemma station_intensity_bounds (raw : byte) :
  -30 <= Z.land (u8 raw) 0x7F - 30 <= 97
  /\ (-3 <=? tenths (Z.land (u8 raw) 0x7F - 30))%float = true
  /\ (tenths (Z.land (u8 raw) 0x7F - 30) <=? tenths 97)%float = true.
Proof.
  destruct raw;
    (split; [split; vm_compute; discriminate | split; vm_compute; reflexivity]).
Qed.

Lemma area_intensity_bounds (raw : byte) :
  -30 <= u8 raw - 30 <= 225
  /\ (-3 <=? tenths (u8 raw - 30))%float = true
  /\ (tenths (u8 raw - 30) <=? 22.5)%float = true.
Proof.
  destruct raw;
    (split; [split; vm_compute; discriminate | split; vm_compute; reflexivity]).
Qed.

Lemma readStation_in_range p st q :
  readStation p = (Ok st, q) -> station_in_range st.
Proof.
  intros H. apply readStation_inv_Ok in H
    as (b0 & b1 & b2 & b3 & n1 & n2 & raw & Hid & Hn1 & Hpga & Hn2 & Hpgv & Hi & _).
  destruct (station_intensity_bounds raw) as (Hk & Hlo & Hhi).
  unfold station_in_range. rewrite Hid, Hpga, Hpgv, Hi.
  split; [apply le32_range | ].
  split; [exists n1; auto | ].
  split; [exists n2; auto | ].
  split; [exists (Z.land (u8 raw) 0x7F - 30); auto | ].
  split; assumption.
Qed.

Lemma readAreaIntensity_in_range p a q :
  readAreaIntensity p = (Ok a, q) -> area_in_range a.
Proof.
  intros H. apply readAreaIntensity_inv_Ok in H as (c0 & c1 & raw & _ & ->).
  destruct (area_intensity_bounds raw) as (Hk & Hlo & Hhi).
  unfold area_in_range. simpl.
  split; [apply le16_range | ].
  split; [exists (u8 raw - 30); auto | ].
  split; assumption.
Qed.

(** X5: in a returned document every station record has an identifier
    below 2^32, [pga] and [pgv] equal to a 24-bit value divided by 100, and
    an intensity that is one of the tenths between -3.0 and 9.7; every area
    record has a code below 2^16 and an intensity that is one of the tenths
    between -3.0 and 22.5. *)
Theorem Parse_record_values :
  forall b d q,
    Parse (NewRTSParser b) = ((Some d, None), q) ->
    Forall station_in_range (Stations d)
    /\ Forall area_in_range (AreaIntensities d).
Proof.
  intros b d q H. apply Parse_Some in H as [H _].
  apply parseM_inv_Ok in H
    as (v & t0 & t1 & t2 & t3 & t4 & s0 & s1 & i0 & i1 & r0 & r1 & body & mid
        & _ & _ & _ & _ & Hrs & _ & Hra).
  split.
  - exact (reads_in_order_Forall _ _ readStation_in_range _ _ _ Hrs).
  - exact (reads_in_order_Forall _ _ readAreaIntensity_in_range _ _ _ Hra).
Qed.

Lemma Parse_record_values_witness :
  Forall station_in_range (Stations sample_document)
  /\ Forall area_in_range (AreaIntensities sample_document).
Proof.
  exact (Parse_record_values sample_capture sample_document (NewRTSParser [])
           sample_capture_parses).
Defined.

(** The raw byte of a station record can be read back from its decoded
    intensity and alert flag. *)
Lemma station_raw_byte (raw : byte) :
  Z_of_float (tenths (Z.land (u8 raw) 0x7F - 30) * 10)%float + 30
  + (if Z.testbit (u8 raw) 7 then 128 else 0)
  = u8 raw.
Proof. destruct raw; vm_compute; reflexivity. Qed.

(** X6: the intensity and alert byte of a station record is decoded
    without loss and its two parts are independent: two bytes that agree on
    bits 0 to 6 decode to the same intensity whatever bit 7 is, the alert
    flag is bit 7 whatever the other bits are, and two bytes that decode to
    the same intensity and the same flag are the same byte. *)
Theorem readIntensityAlert_lossless :
  forall raw1 raw2 rest1 rest2,
    exists i1 i2,
      readIntensityAlert (NewRTSParser (raw1 :: rest1))
      = (Ok (i1, Z.testbit (u8 raw1) 7), NewRTSParser rest1)
      /\ readIntensityAlert (NewRTSParser (raw2 :: rest2))
         = (Ok (i2, Z.testbit (u8 raw2) 7), NewRTSParser rest2)
      /\ (Z.land (u8 raw1) 0x7F = Z.land (u8 raw2) 0x7F -> i1 = i2)
      /\ (i1 = i2 -> Z.testbit (u8 raw1) 7 = Z.testbit (u8 raw2) 7 -> raw1 = raw2).
Proof.
  intros raw1 raw2 rest1 rest2.
  exists (tenths (Z.land (u8 raw1) 0x7F - 30)), (tenths (Z.land (u8 raw2) 0x7F - 30)).
  rewrite !readIntensityAlert_cons, !station_intensity_tenths.
  split; [reflexivity | ]. split; [reflexivity | ]. split.
  - intros ->. reflexivity.
  - intros Hi Ha. apply u8_inj.
    rewrite <- (station_raw_byte raw1), <- (station_raw_byte raw2), Hi, Ha.
    reflexivity.
Qed.

Lemma le16_low (m : byte) : le16 m Byte.x00 = u8 m.
Proof. unfold le16. change (u8 Byte.x00) with 0. lia. Qed.

Lemma le24_low (lo hi : byte) : le24 lo hi Byte.x00 = le16 lo hi.
Proof. unfold le24. change (u8 Byte.x00) with 0. lia. Qed.

(** X7: [readVarInt] accepts every encoding of a value, not only the
    shortest: for every byte [m], the three-byte form [FD m 00] and the
    four-byte form [FE m 00 00] decode to the value of [m] divided by 100;
    [FE lo hi 00] decodes as [FD lo hi] does; and the reserved marker [FF]
    decodes as the byte [00] does. *)
Theorem readVarInt_redundant_forms :
  forall m lo hi rest,
    readVarInt (NewRTSParser (Byte.xfd :: m :: Byte.x00 :: rest))
    = (Ok (float64_of_Z (u8 m) / 100)%float, NewRTSParser rest)
    /\ readVarInt (NewRTSParser (Byte.xfe :: m :: Byte.x00 :: Byte.x00 :: rest))
       = (Ok (float64_of_Z (u8 m) / 100)%float, NewRTSParser rest)
    /\ readVarInt (NewRTSParser (Byte.xfe :: lo :: hi :: Byte.x00 :: rest))
       = readVarInt (NewRTSParser (Byte.xfd :: lo :: hi :: rest))
    /\ readVarInt (NewRTSParser (Byte.xff :: rest))
       = readVarInt (NewRTSParser (Byte.x00 :: rest)).
Proof.
  intros m lo hi rest.
  rewrite !readVarInt_u16, !readVarInt_u24, readVarInt_reserved.
  rewrite !le24_low, !le16_low.
  repeat split.
Qed.

(** X8: a source that ends right after a header announcing at least one
    record makes [Parse] return [io.EOF], the error that it also returns on
    an empty source, and not [io.ErrUnexpectedEOF]: the next read starts
    with no byte left. *)
Theorem Parse_EOF_after_header :
  Parse (NewRTSParser []) = ((None, Some EOF), NewRTSParser [])
  /\ forall t0 t1 t2 t3 t4 s0 s1 i0 i1 r0 r1,
       0 < le16 s0 s1 + le16 i0 i1 ->
       Parse (NewRTSParser
                [Byte.x01; t0; t1; t2; t3; t4; s0; s1; i0; i1; r0; r1])
       = ((None, Some EOF), NewRTSParser []).
Proof.
  split; [reflexivity | ].
  intros t0 t1 t2 t3 t4 s0 s1 i0 i1 r0 r1 Hpos.
  apply Parse_Err. unfold parseM.
  rewrite (bind_Ok _ _ _ _ _ (readU8_cons Byte.x01 _)).
  change (negb (u8 Byte.x01 =? SupportedVersion)) with false. cbv iota.
  rewrite (bind_Ok _ _ _ _ _ (readTime40_cons t0 t1 t2 t3 t4 _)).
  rewrite (bind_Ok _ _ _ _ _ (readU16_cons s0 s1 _)).
  rewrite (bind_Ok _ _ _ _ _ (readU16_cons i0 i1 _)).
  rewrite (bind_Ok _ _ _ _ _ (readU16_cons r0 r1 _)).
  cbv zeta.
  pose proof (le16_range s0 s1) as Hs. pose proof (le16_range i0 i1) as Hi.
  destruct (Z.to_nat (le16 s0 s1)) as [| k] eqn:Hk.
  - simpl forRange. rewrite (bind_Ok _ _ _ [] (NewRTSParser [])) by reflexivity.
    destruct (Z.to_nat (le16 i0 i1)) as [| j] eqn:Hj; [lia | ].
    simpl forRange. repeat apply bind_Err. reflexivity.
  - simpl forRange. repeat apply bind_Err. reflexivity.
Qed.

Lemma Parse_EOF_after_header_witness :
  Parse (NewRTSParser (take 12 sample_capture)) = ((None, Some EOF), NewRTSParser []).
Proof.
  refine (proj2 Parse_EOF_after_header Byte.x00 Byte.x00 Byte.x00 Byte.x00 Byte.x00
            Byte.x01 Byte.x00 Byte.x01 Byte.x00 Byte.x07 Byte.x00 _).
  vm_compute. reflexivity.
Defined.

(** *** The result is decided by the bytes taken *)

Lemma prefix_determined_ret {A} (a : A) : prefix_determined (ret a : M A).
Proof.
  intros p a' q [= <- <-]. exists []. split; [reflexivity | ].
  intros rest. reflexivity.
Qed.

Lemma prefix_determined_fail {A} (e : error) : prefix_determined (fail e : M A).
Proof. intros p a q H. discriminate H. Qed.

Lemma prefix_determined_bind {A B} (m : M A) (f : A -> M B) :
  prefix_determined m -> (forall a, prefix_determined (f a)) ->
  prefix_determined (bind m f).
Proof.
  intros Hm Hf p y q H.
  apply bind_inv_Ok in H as (a & p1 & H1 & H2).
  destruct (Hm _ _ _ H1) as (pre1 & Hp1 & Hrun1).
  destruct (Hf _ _ _ _ H2) as (pre2 & Hp2 & Hrun2).
  exists (pre1 ++ pre2). split.
  - rewrite Hp1, Hp2, app_assoc. reflexivity.
  - intros rest. rewrite <- app_assoc.
    rewrite (bind_Ok _ _ _ _ _ (Hrun1 (pre2 ++ rest))). apply Hrun2.
Qed.

Lemma prefix_determined_readExact (size : nat) :
  prefix_determined (readExact size).
Proof.
  intros p buf q H. apply readExact_inv_Ok in H as [Hp Hlen].
  exists buf. split; [exact Hp | ].
  intros rest. rewrite <- Hlen. apply readExact_app.
Qed.

Lemma prefix_determined_if {A} (c : bool) (m1 m2 : M A) :
  prefix_determined m1 -> prefix_determined m2 ->
  prefix_determined (if c then m1 else m2).
Proof. destruct c; auto. Qed.

Lemma prefix_determined_forRange {X} (body : nat -> X -> M X) (k : nat) :
  (forall i s, prefix_determined (body i s)) ->
  forall i s, prefix_determined (forRange k i body s).
Proof.
  intros Hbody. induction k as [| k IH]; intros i s; simpl.
  - apply prefix_determined_ret.
  - apply prefix_determined_bind; [apply Hbody | intros s'; apply IH].
Qed.

(** One step of a proof that a reader built from binds is decided by the
    bytes it takes. *)
Ltac prefix_step :=
  lazymatch goal with
  | |- prefix_determined (bind _ _) => apply prefix_determined_bind; [ | intros ? ]
  | |- prefix_determined (forRange _ _ _ _) =>
      apply prefix_determined_forRange; intros ? ?
  | |- prefix_determined (if _ then _ else _) => apply prefix_determined_if
  | |- prefix_determined (let '(_, _) := ?x in _) => destruct x
  | |- prefix_determined (ret _) => apply prefix_determined_ret
  | |- prefix_determined (fail _) => apply prefix_determined_fail
  | |- prefix_determined (readExact _) => apply prefix_determined_readExact
  | |- prefix_determined ?m => unfold m
  end.

Lemma prefix_determined_parseM : prefix_determined parseM.
Proof. cbv zeta. repeat (prefix_step; cbv zeta). Qed.

(** X9: the document that [Parse] returns is decided by the bytes it took:
    these form a prefix of the source, and [Parse] returns the same document
    on every source that starts with that prefix, whatever follows it, and
    leaves what follows. *)
Theorem Parse_prefix_determined :
  forall b d q,
    Parse (NewRTSParser b) = ((Some d, None), q) ->
    exists pre,
      b = pre ++ reader q
      /\ forall rest,
           Parse (NewRTSParser (pre ++ rest)) = ((Some d, None), NewRTSParser rest).
Proof.
  intros b d q H. apply Parse_Some in H as [H _].
  destruct (prefix_determined_parseM _ _ _ H) as (pre & Hp & Hrun).
  exists pre. split; [exact Hp | ].
  intros rest. apply Parse_Ok, Hrun.
Qed.

Lemma Parse_prefix_determined_witness :
  exists pre,
    sample_capture ++ [Byte.x2a] = pre ++ reader (NewRTSParser [Byte.x2a])
    /\ forall rest,
         Parse (NewRTSParser (pre ++ rest))
         = ((Some sample_document, None), NewRTSParser rest).
Proof.
  apply (Parse_prefix_determined (sample_capture ++ [Byte.x2a]) sample_document
           (NewRTSParser [Byte.x2a])).
  vm_compute. reflexivity.
Defined.

End MoreGo.

(** ** More about the JavaScript decoder *)

Section MoreJS.

Lemma keeps_bounds_ret {A} (a : A) : keeps_bounds (ret a : JS.M A).
Proof. intros s r s' [= <- <-]. auto. Qed.

Lemma keeps_bounds_fail {A} (e : JS.exn) : keeps_bounds (fail e : JS.M A).
Proof. intros s r s' [= <- <-]. auto. Qed.

Lemma keeps_bounds_bind {A B} (m : JS.M A) (f : A -> JS.M B) :
  keeps_bounds m -> (forall a, keeps_bounds (f a)) -> keeps_bounds (bind m f).
Proof.
  intros Hm Hf s r s' H. unfold bind in H.
  destruct (m s) as [[a | e] s1] eqn:Hs1.
  - destruct (Hm _ _ _ Hs1) as (Hv1 & Ho1 & Hb1).
    destruct (Hf _ _ _ _ H) as (Hv2 & Ho2 & Hb2).
    rewrite Hv1 in Hv2, Hb2.
    split; [exact Hv2 | ]. split; [lia | ]. intros Hin. auto.
  - injection H as <- <-. exact (Hm _ _ _ Hs1).
Qed.

Lemma keeps_bounds_if {A} (c : bool) (m1 m2 : JS.M A) :
  keeps_bounds m1 -> keeps_bounds m2 -> keeps_bounds (if c then m1 else m2).
Proof. destruct c; auto. Qed.

Lemma keeps_bounds_forRange {X} (body : nat -> X -> JS.M X) (k : nat) :
  (forall i x, keeps_bounds (body i x)) ->
  forall i x, keeps_bounds (forRange k i body x).
Proof.
  intros Hbody. induction k as [| k IH]; intros i x; simpl.
  - apply keeps_bounds_ret.
  - apply keeps_bounds_bind; [apply Hbody | intros x'; apply IH].
Qed.

(** A read guarded by [_checkBounds]: it throws with the parser unchanged,
    or advances by the size that was checked. *)
Ltac checked_read :=
  let s := fresh "s" in
  let r := fresh "r" in
  let s' := fresh "s" in
  let H := fresh "H" in
  intros s r s' H;
  unfold bind, JS._checkBounds, JS.this, JS.advance, ret, JS.byteLength in H;
  revert H;
  match goal with
  | |- context [(length (JS.view s) <? ?k)%nat] =>
      let Hb := fresh "Hbound" in
      destruct (Nat.ltb_spec (length (JS.view s)) k) as [Hb | Hb]
  end;
  intros H; injection H as <- <-; cbn [JS.view JS.offset];
  (split; [reflexivity | split; lia]).

Lemma keeps_bounds_readU8 : keeps_bounds JS._readU8.
Proof. unfold JS._readU8. checked_read. Qed.

Lemma keeps_bounds_readU16 : keeps_bounds JS._readU16.
Proof. unfold JS._readU16. checked_read. Qed.

Lemma keeps_bounds_readU32 : keeps_bounds JS._readU32.
Proof. unfold JS._readU32. checked_read. Qed.

Lemma keeps_bounds_readTime40 : keeps_bounds JS._readTime40.
Proof. unfold JS._readTime40. checked_read. Qed.

(** One step of a proof that a method keeps the cursor in order. *)
Ltac bounds_step :=
  lazymatch goal with
  | |- keeps_bounds (bind (JS._checkBounds _) _) => checked_read
  | |- keeps_bounds (bind _ _) => apply keeps_bounds_bind; [ | intros ? ]
  | |- keeps_bounds (forRange _ _ _ _) => apply keeps_bounds_forRange; intros ? ?
  | |- keeps_bounds (if _ then _ else _) => apply keeps_bounds_if
  | |- keeps_bounds (let '(_, _) := ?x in _) => destruct x
  | |- keeps_bounds (ret _) => apply keeps_bounds_ret
  | |- keeps_bounds (fail _) => apply keeps_bounds_fail
  | |- keeps_bounds JS._readU8 => apply keeps_bounds_readU8
  | |- keeps_bounds JS._readU16 => apply keeps_bounds_readU16
  | |- keeps_bounds JS._readU32 => apply keeps_bounds_readU32
  | |- keeps_bounds JS._readTime40 => apply keeps_bounds_readTime40
  | |- keeps_bounds ?m => unfold m
  end.

Lemma keeps_bounds_parse : keeps_bounds JS.parse.
Proof. cbv zeta. repeat (bounds_step; cbv zeta). Qed.

End MoreJS.

(** ** The size that an end-of-input message names *)

Section Need.

Lemma take_agree_nth (n i : nat) (v v' : list byte) :
  take n v' = take n v -> (i < n)%nat -> nth i v' Byte.x00 = nth i v Byte.x00.
Proof.
  intros H Hi. rewrite !nth_lookup.
  rewrite <- (lookup_take_lt v' n i), <- (lookup_take_lt v n i) by lia.
  rewrite H. reflexivity.
Qed.

Lemma take_agree_length (n : nat) (v v' : list byte) :
  take n v' = take n v -> (n <= length v)%nat -> (n <= length v')%nat.
Proof.
  intros H Hn. apply (f_equal length) in H. rewrite !length_take in H. lia.
Qed.

Lemma take_agree_le (n k : nat) (v v' : list byte) :
  take n v' = take n v -> (k <= n)%nat -> take k v' = take k v.
Proof.
  intros H Hk. apply (f_equal (take k)) in H.
  rewrite !take_take in H. replace (k `min` n)%nat with k in H by lia. exact H.
Qed.

Lemma getUint8_agree (n i : nat) (v v' : list byte) :
  take n v' = take n v -> (i < n)%nat -> JS.getUint8 v' i = JS.getUint8 v i.
Proof.
  intros H Hi. unfold JS.getUint8. rewrite (take_agree_nth n i v v' H Hi). reflexivity.
Qed.

(** *** Composition *)

Lemma reads_by_need_ret {A} (a : A) : reads_by_need (ret a : JS.M A).
Proof. intros s r s' [= <- <-]. auto. Qed.

Lemma reads_by_need_fail {A} (v : Z) :
  reads_by_need (fail (JS.Error ("Unsupported RTS version: " +:+ pretty v)) : JS.M A).
Proof.
  intros s r s' [= <- <-]. split; [reflexivity | ]. split; [lia | ].
  left. exists v. reflexivity.
Qed.

Lemma reads_by_need_offset {A} (m : JS.M A) (s : JS.RTSParser) :
  reads_by_need m -> (JS.offset s <= JS.offset (snd (m s)))%nat.
Proof.
  intros Hm. destruct (m s) as [r s'] eqn:H. exact (proj1 (proj2 (Hm _ _ _ H))).
Qed.

Lemma reads_by_need_bind {A B} (m : JS.M A) (f : A -> JS.M B) :
  reads_by_need m -> (forall a, reads_by_need (f a)) -> reads_by_need (bind m f).
Proof.
  intros Hm Hf s r s' H. unfold bind in H.
  destruct (m s) as [[a | e] s1] eqn:Hs1.
  - destruct (Hm _ _ _ Hs1) as (Hv1 & Ho1 & Hok1).
    destruct (Hf _ _ _ _ H) as (Hv2 & Ho2 & Hr2).
    rewrite Hv1 in Hv2, Hr2.
    split; [exact Hv2 | ]. split; [lia | ].
    assert (Hrun : forall v,
               take (JS.offset s') v = take (JS.offset s') (JS.view s) ->
               bind m f {| JS.view := v; JS.offset := JS.offset s |}
               = f a {| JS.view := v; JS.offset := JS.offset s1 |}).
    { intros v Hv. unfold bind.
      rewrite (Hok1 v (take_agree_le _ _ _ _ Hv Ho2)). reflexivity. }
    destruct r as [b | e].
    + intros v Hv. rewrite (Hrun v Hv). exact (Hr2 v Hv).
    + destruct Hr2 as [Hver | (size & Hlt & He & Hstop)]; [left; exact Hver | right].
      exists size. split; [exact Hlt | ]. split; [exact He | ].
      intros v Hv. rewrite (Hrun v Hv).
      unfold stops_for_want_of in Hstop. rewrite Hv1 in Hstop. exact (Hstop v Hv).
  - injection H as <- <-.
    destruct (Hm _ _ _ Hs1) as (Hv1 & Ho1 & Hr1).
    split; [exact Hv1 | ]. split; [exact Ho1 | ].
    destruct Hr1 as [Hver | (size & Hlt & He & Hstop)]; [left; exact Hver | right].
    exists size. split; [exact Hlt | ]. split; [exact He | ].
    intros v Hv. destruct (Hstop v Hv) as [Hfew Hmany]. split.
    + intros Hlen. unfold bind. rewrite (Hfew Hlen). reflexivity.
    + intros Hlen. specialize (Hmany Hlen). unfold bind.
      destruct (m {| JS.view := v; JS.offset := JS.offset s |}) as [[a | e'] s2];
        [ | exact Hmany].
      pose proof (reads_by_need_offset (f a) s2 (Hf a)). cbn [snd] in Hmany. lia.
Qed.

Lemma reads_by_need_if {A} (c : bool) (m1 m2 : JS.M A) :
  reads_by_need m1 -> reads_by_need m2 -> reads_by_need (if c then m1 else m2).
Proof. destruct c; auto. Qed.

Lemma reads_by_need_forRange {X} (body : nat -> X -> JS.M X) (k : nat) :
  (forall i x, reads_by_need (body i x)) ->
  forall i x, reads_by_need (forRange k i body x).
Proof.
  intros Hbody. induction k as [| k IH]; intros i x; simpl.
  - apply reads_by_need_ret.
  - apply reads_by_need_bind; [apply Hbody | intros x'; apply IH].
Qed.

(** *** The guarded reads *)

(** A read of [k] bytes guarded by [_checkBounds k]: the value [g] that it
    returns depends on the [k] bytes at the offset only. *)
Lemma reads_by_need_guarded {A} (k : nat) (g : list byte -> nat -> A) (m : JS.M A) :
  (forall s,
     m s = if (length (JS.view s) <? JS.offset s + k)%nat
           then (Err (JS.Error ("Unexpected EOF: expected " +:+ pretty k +:+ " bytes")),
                 s)
           else (Ok (g (JS.view s) (JS.offset s)),
                 {| JS.view := JS.view s; JS.offset := JS.offset s + k |})) ->
  (forall v v' off,
     take (off + k) v' = take (off + k) v -> g v' off = g v off) ->
  reads_by_need m.
Proof.
  intros Hm Hg s r s' H. rewrite Hm in H.
  destruct (Nat.ltb_spec (length (JS.view s)) (JS.offset s + k)) as [Hout | Hin];
    injection H as <- <-; cbn [JS.view JS.offset];
    (split; [reflexivity | ]); (split; [lia | ]).
  - right. exists k. split; [exact Hout | ]. split; [reflexivity | ].
    intros v Hv. split; intros Hlen; rewrite Hm; cbn [JS.view JS.offset].
    + destruct (Nat.ltb_spec (length v) (JS.offset s + k)); [reflexivity | lia].
    + destruct (Nat.ltb_spec (length v) (JS.offset s + k)); [lia | ].
      cbn [snd JS.offset]. lia.
  - intros v Hv. rewrite Hm. cbn [JS.view JS.offset].
    pose proof (take_agree_length _ _ _ Hv Hin).
    destruct (Nat.ltb_spec (length v) (JS.offset s + k)); [lia | ].
    rewrite (Hg (JS.view s) v (JS.offset s) Hv). reflexivity.
Qed.

(** Reduce a guarded read to the two cases of its check. *)
Ltac guarded k g :=
  apply (reads_by_need_guarded k g);
  [ let s := fresh "s" in
    intros s;
    unfold JS._readU8, JS._readU16, JS._readU32, JS._readTime40, bind,
      JS._checkBounds, JS.this, JS.advance, ret, JS.byteLength;
    destruct (length (JS.view s) <? JS.offset s + k)%nat; reflexivity
  | let v := fresh "v" in
    let v' := fresh "v" in
    let off := fresh "off" in
    let H := fresh "H" in
    intros v v' off H;
    unfold JS.getUint32, JS.getUint16;
    repeat rewrite (getUint8_agree _ _ v v' H) by lia;
    reflexivity ].

Lemma reads_by_need_readU8 : reads_by_need JS._readU8.
Proof. guarded 1%nat (fun v off => JS.getUint8 v off). Qed.

Lemma reads_by_need_readU16 : reads_by_need JS._readU16.
Proof. guarded 2%nat (fun v off => JS.getUint16 v off). Qed.

Lemma reads_by_need_readU32 : reads_by_need JS._readU32.
Proof. guarded 4%nat (fun v off => JS.getUint32 v off). Qed.

Lemma reads_by_need_readTime40 : reads_by_need JS._readTime40.
Proof.
  guarded 5%nat
    (fun v off =>
       let lo := JS.getUint32 v off in
       let hi := JS.getUint8 v (off + 4) in
       let rawOffset := Z.lor (Z.shiftl hi 32) lo in
       let rawOffset :=
         if negb (Z.land rawOffset (Z.shiftl 1 39) =? 0)
         then rawOffset - Z.shiftl 1 40 else rawOffset in
       JS.EPOCH_2026_MS + rawOffset).
Qed.

(** One step of a proof that a method reads what it needs and no more. *)
Ltac need_step :=
  lazymatch goal with
  | |- reads_by_need (bind (JS._checkBounds 3) _) =>
      guarded 3%nat
        (fun v off =>
           js_or (js_or (JS.getUint8 v off) (js_shl (JS.getUint8 v (off + 1)) 8))
                 (js_shl (JS.getUint8 v (off + 2)) 16))
  | |- reads_by_need (bind _ _) => apply reads_by_need_bind; [ | intros ? ]
  | |- reads_by_need (forRange _ _ _ _) => apply reads_by_need_forRange; intros ? ?
  | |- reads_by_need (if _ then _ else _) => apply reads_by_need_if
  | |- reads_by_need (let '(_, _) := ?x in _) => destruct x
  | |- reads_by_need (ret _) => apply reads_by_need_ret
  | |- reads_by_need (fail _) => apply reads_by_need_fail
  | |- reads_by_need JS._readU8 => apply reads_by_need_readU8
  | |- reads_by_need JS._readU16 => apply reads_by_need_readU16
  | |- reads_by_need JS._readU32 => apply reads_by_need_readU32
  | |- reads_by_need JS._readTime40 => apply reads_by_need_readTime40
  | |- reads_by_need ?m => unfold m
  end.

Lemma reads_by_need_parse : reads_by_need JS.parse.
Proof. cbv zeta. repeat (need_step; cbv zeta). Qed.

Lemma eof_message_not_version (size : nat) (v : Z) :
  JS.Error ("Unexpected EOF: expected " +:+ pretty size +:+ " bytes")
  <> JS.Error ("Unsupported RTS version: " +:+ pretty v).
Proof. simpl. discriminate. Qed.

(** X10: on the same bytes the JavaScript decoder and the Go decoder return
    the same document, field by field and record by record, having read the
    same number of bytes; or both fail. Both fail on the version, each
    message naming it; or both fail at the end of the input: the JavaScript
    decoder stops at an offset where fewer bytes are left than the size that
    its message names, the Go error is [io.EOF] when no byte is left at that
    offset and [io.ErrUnexpectedEOF] when some are, and the size named is
    the size for want of which the decoder stopped: on every input with the
    same bytes before that offset it stops there with the same message when
    fewer bytes than the size follow, and reads past them when they are
    there. *)
Theorem parse_agrees_with_Parse (bytes : list byte) :
  match JS.parse {| JS.view := bytes; JS.offset := 0 |},
        Go.Parse (Go.NewRTSParser bytes) with
  | (Ok jd, s'), ((Some gd, None), q) =>
      to_Go jd = gd /\ Go.reader q = drop (JS.offset s') bytes
  | (Err je, s'), ((None, Some ge), _) =>
      (exists v : Z,
         je = JS.Error ("Unsupported RTS version: " +:+ pretty v)
         /\ ge = Go.Errorf ("unsupported RTS version: " +:+ pretty v))
      \/ (exists size left : nat,
            (JS.offset s' + left = length bytes)%nat
            /\ (left < size)%nat
            /\ je = JS.Error ("Unexpected EOF: expected " +:+ pretty size +:+ " bytes")
            /\ ge = match left with O => Go.EOF | S _ => Go.ErrUnexpectedEOF end
            /\ stops_for_want_of JS.parse {| JS.view := bytes; JS.offset := 0 |} s' size)
  | _, _ => False
  end.
Proof.
  pose proof (parse_simulates_Parse {| JS.view := bytes; JS.offset := 0 |}) as H.
  pose proof (reads_by_need_parse {| JS.view := bytes; JS.offset := 0 |}) as Hn.
  pose proof (keeps_bounds_parse {| JS.view := bytes; JS.offset := 0 |}) as Hb.
  cbn [JS.view JS.offset] in H, Hn, Hb. rewrite drop_0 in H. unfold Go.Parse.
  destruct (JS.parse _) as [[jd | je] s']; destruct (Go.parseM _) as [[gd | ge] p'];
    try contradiction.
  - destruct H as (Hdoc & _ & Hreader). auto.
  - destruct H as (Hview & H).
    destruct (Hn _ _ eq_refl) as (_ & _ & Hneed).
    destruct (Hb _ _ eq_refl) as (_ & _ & Hin). specialize (Hin ltac:(lia)).
    destruct H as [(size0 & _ & Hje0 & Hge) | Hver]; [ | left; exact Hver].
    destruct Hneed as [(v & Hje) | (size & Hlt & Hje & Hstop)].
    { exfalso. rewrite Hje in Hje0. symmetry in Hje0.
      exact (eof_message_not_version _ _ Hje0). }
    right. exists size, (length bytes - JS.offset s')%nat.
    split; [lia | ]. split; [lia | ]. split; [exact Hje | ]. split; [ | exact Hstop].
    rewrite Hge, Hview. unfold eof_error.
    pose proof (length_drop bytes (JS.offset s')) as Hlen.
    destruct (drop (JS.offset s') bytes) as [| x rest]; simpl in Hlen; rewrite <- Hlen;
      reflexivity.
Qed.

End Need.

(** ** Two parsers over equal bytes *)

Section Determinism.

(** One round of the loop of [io.ReadAtLeast] is one call of [Read]. *)
Lemma io_ReadAtLeast_Read (r : list (list byte)) (got : list byte) (n : nat) :
  Chunked.io_ReadAtLeast r got (S n)
  = match Chunked.Read (S n) r with
    | ((bs, None), r') => Chunked.io_ReadAtLeast r' (got ++ bs) (S n - length bs)
    | ((bs, Some err), r') =>
        (Err match got ++ bs with [] => err | _ :: _ => Go.ErrUnexpectedEOF end, r')
    end.
Proof.
  destruct r as [| c rest]; simpl.
  - rewrite app_nil_r. reflexivity.
  - destruct (Nat.leb_spec (length c) (S n)) as [Hle | Hgt]; [reflexivity | ].
    rewrite length_take. replace (S n - S n `min` length c)%nat with 0%nat by lia.
    destruct rest; reflexivity.
Qed.

(** [io.ReadFull] over the pieces is [io.ReadFull] over their bytes. *)
Lemma io_ReadAtLeast_concat (r : list (list byte)) :
  forall got need,
    ((need <= length (concat r))%nat ->
     exists r',
       Chunked.io_ReadAtLeast r got need = (Ok (got ++ take need (concat r)), r')
       /\ concat r' = drop need (concat r))
    /\ ((length (concat r) < need)%nat ->
        Chunked.io_ReadAtLeast r got need = (Err (eof_error (got ++ concat r)), [])).
Proof.
  induction r as [| c rest IH]; intros got need.
  - destruct need as [| n]; simpl; split; intros H; try lia.
    + exists []. rewrite app_nil_r. auto.
    + rewrite app_nil_r. reflexivity.
  - destruct need as [| n].
    { split; intros H; [ | lia]. exists (c :: rest).
      rewrite take_0, app_nil_r, drop_0. auto. }
    cbn [Chunked.io_ReadAtLeast concat]. rewrite length_app.
    destruct (Nat.leb_spec (length c) (S n)) as [Hle | Hgt].
    + destruct (IH (got ++ c) (S n - length c)%nat) as [IHok IHerr].
      split; intros H.
      * destruct (IHok ltac:(lia)) as (r' & Hrun & Hrest).
        exists r'. rewrite Hrun, take_app, drop_app, (take_ge c), (drop_ge c) by lia.
        rewrite <- app_assoc. auto.
      * rewrite (IHerr ltac:(lia)), <- app_assoc. reflexivity.
    + split; intros H; [ | lia].
      exists (drop (S n) c :: rest).
      rewrite take_app, drop_app.
      replace (S n - length c)%nat with 0%nat by lia.
      rewrite take_0, drop_0, app_nil_r. auto.
Qed.

Lemma same_on_pieces_readExact (size : nat) :
  same_on_pieces (Chunked.readExact size) (Go.readExact size).
Proof.
  intros [r]. unfold Chunked.readExact, Chunked.io_ReadFull, Go.readExact,
    Go.io_ReadFull. cbn [Chunked.reader Go.reader Go.NewRTSParser].
  destruct (io_ReadAtLeast_concat r [] size) as [Hok Herr].
  destruct (Nat.leb_spec size (length (concat r))) as [Hle | Hgt].
  - destruct (Hok Hle) as (r' & -> & Hrest). auto.
  - rewrite (Herr Hgt). cbn [app]. unfold eof_error.
    destruct (concat r); auto.
Qed.

Lemma same_on_pieces_ret {A} (a : A) : same_on_pieces (ret a) (ret a).
Proof. intros p. simpl. auto. Qed.

Lemma same_on_pieces_fail {A} (e : Go.error) :
  same_on_pieces (fail e : Chunked.M A) (fail e).
Proof. intros p. simpl. auto. Qed.

Lemma same_on_pieces_bind {A B} (mc : Chunked.M A) (mg : Go.M A)
    (fc : A -> Chunked.M B) (fg : A -> Go.M B) :
  same_on_pieces mc mg -> (forall a, same_on_pieces (fc a) (fg a)) ->
  same_on_pieces (bind mc fc) (bind mg fg).
Proof.
  intros Hm Hf p. specialize (Hm p). unfold bind.
  destruct (mc p) as [rc p1]; destruct (mg _) as [rg q1].
  destruct Hm as [<- Hrest]. destruct rc as [a | e]; [ | auto].
  specialize (Hf a p1). rewrite Hrest, parser_eta in Hf. exact Hf.
Qed.

Lemma same_on_pieces_if {A} (c : bool) (mc1 mc2 : Chunked.M A) (mg1 mg2 : Go.M A) :
  same_on_pieces mc1 mg1 -> same_on_pieces mc2 mg2 ->
  same_on_pieces (if c then mc1 else mc2) (if c then mg1 else mg2).
Proof. destruct c; auto. Qed.

Lemma same_on_pieces_forRange {X} (bodyC : nat -> X -> Chunked.M X)
    (bodyG : nat -> X -> Go.M X) (k : nat) :
  (forall i x, same_on_pieces (bodyC i x) (bodyG i x)) ->
  forall i x, same_on_pieces (forRange k i bodyC x) (forRange k i bodyG x).
Proof.
  intros Hbody. induction k as [| k IH]; intros i x; simpl.
  - apply same_on_pieces_ret.
  - apply same_on_pieces_bind; [apply Hbody | intros x'; apply IH].
Qed.

(** One step of a proof that a method does over the pieces what it does
    over their bytes. *)
Ltac pieces_step :=
  lazymatch goal with
  | |- same_on_pieces (Chunked.readExact _) (Go.readExact _) =>
      apply same_on_pieces_readExact
  | |- same_on_pieces (bind _ _) (bind _ _) => apply same_on_pieces_bind; [ | intros ? ]
  | |- same_on_pieces (forRange _ _ _ _) (forRange _ _ _ _) =>
      apply same_on_pieces_forRange; intros ? ?
  | |- same_on_pieces (if _ then _ else _) (if _ then _ else _) =>
      apply same_on_pieces_if
  | |- same_on_pieces (let '(_, _) := ?x in _) _ => destruct x
  | |- same_on_pieces (ret _) (ret _) => apply same_on_pieces_ret
  | |- same_on_pieces (fail _) (fail _) => apply same_on_pieces_fail
  | |- same_on_pieces ?mc ?mg => unfold mc, mg
  end.

Lemma same_on_pieces_parseM : same_on_pieces Chunked.parseM Go.parseM.
Proof. cbv zeta. repeat (pieces_step; cbv zeta). Qed.

Lemma Chunked_Parse_concat (p : Chunked.RTSParser) :
  fst (Chunked.Parse p) = fst (Go.Parse (Go.NewRTSParser (concat (Chunked.reader p))))
  /\ concat (Chunked.reader (snd (Chunked.Parse p)))
     = Go.reader (snd (Go.Parse (Go.NewRTSParser (concat (Chunked.reader p))))).
Proof.
  pose proof (same_on_pieces_parseM p) as H. unfold Chunked.Parse, Go.Parse.
  destruct (Chunked.parseM p) as [rc p']; destruct (Go.parseM _) as [rg q].
  destruct H as [<- Hrest]. destruct rc; auto.
Qed.

(** C9: two independent parsers over equal bytes return equal documents or
    the same error. In Go the parser reads from any [io.Reader]: two parsers
    whose readers hold the same bytes, however each reader delivers them,
    return the same document or the same error and leave the same bytes
    unread, and this outcome is that of [Parse] over the bytes in one piece.
    In JavaScript the parser reads from a view of the caller's buffer:
    [parse] leaves the buffer as it was, so a second parser made on the
    buffer when the first has decoded it returns what the first returned. *)
Theorem Parse_deterministic :
  (forall p1 p2 : Chunked.RTSParser,
     concat (Chunked.reader p1) = concat (Chunked.reader p2) ->
     fst (Chunked.Parse p1) = fst (Chunked.Parse p2)
     /\ concat (Chunked.reader (snd (Chunked.Parse p1)))
        = concat (Chunked.reader (snd (Chunked.Parse p2)))
     /\ fst (Chunked.Parse p1)
        = fst (Go.Parse (Go.NewRTSParser (concat (Chunked.reader p1)))))
  /\ (forall (bytes : list byte) r1 s1,
        JS.parse {| JS.view := bytes; JS.offset := 0 |} = (r1, s1) ->
        JS.view s1 = bytes
        /\ fst (JS.parse {| JS.view := JS.view s1; JS.offset := 0 |}) = r1).
Proof.
  split.
  - intros p1 p2 H.
    destruct (Chunked_Parse_concat p1) as [Hr1 Hq1].
    destruct (Chunked_Parse_concat p2) as [Hr2 Hq2].
    rewrite Hr1, Hr2, Hq1, Hq2, H. auto.
  - intros bytes r1 s1 H.
    destruct (keeps_bounds_parse _ _ _ H) as (Hview & _).
    cbn [JS.view] in Hview. rewrite Hview, H. auto.
Qed.

Lemma Parse_deterministic_witness :
  (fst (Chunked.Parse (Chunked.NewRTSParser [sample_capture]))
   = fst (Chunked.Parse
            (Chunked.NewRTSParser (map (fun b => [b]) sample_capture))))
  /\ fst (JS.parse {| JS.view :=
                        JS.view (snd (JS.parse {| JS.view := sample_capture;
                                                  JS.offset := 0 |}));
                      JS.offset := 0 |})
     = fst (JS.parse {| JS.view := sample_capture; JS.offset := 0 |}).
Proof.
  split.
  - refine (proj1 (proj1 Parse_deterministic
                     (Chunked.NewRTSParser [sample_capture])
                     (Chunked.NewRTSParser (map (fun b => [b]) sample_capture)) _)).
    reflexivity.
  - refine (proj2 (proj2 Parse_deterministic sample_capture
                     (fst (JS.parse {| JS.view := sample_capture; JS.offset := 0 |}))
                     (snd (JS.parse {| JS.view := sample_capture; JS.offset := 0 |}))
                     _)).
    apply surjective_pairing.
Defined.

End Determinism.

(** ** The TypeScript decoder against the JavaScript decoder *)

Section TypeScript.

Lemma ts_agrees_ret {A} (a : A) : ts_agrees (ret a) (ret a).
Proof. intros s. simpl. auto. Qed.

Lemma ts_agrees_fail {A} (v : Z) :
  ts_agrees (fail (JS.Error ("Unsupported RTS version: " +:+ pretty v)) : TS.M A)
            (fail (JS.Error ("Unsupported RTS version: " +:+ pretty v))).
Proof. intros s. simpl. split; [reflexivity | left; exists v; auto]. Qed.

Lemma ts_agrees_this {A} (f : JS.RTSParser -> A) : ts_agrees (JS.this f) (JS.this f).
Proof. intros s. simpl. auto. Qed.

Lemma ts_agrees_advance (n : nat) : ts_agrees (JS.advance n) (JS.advance n).
Proof. intros s. simpl. auto. Qed.

Lemma ts_agrees_checkBounds (size : nat) :
  ts_agrees (TS.checkBounds size) (JS._checkBounds size).
Proof.
  intros s. unfold TS.checkBounds, JS._checkBounds, JS.byteLength.
  destruct (Nat.ltb_spec (length (JS.view s)) (JS.offset s + size)) as [Hout | Hin].
  - split; [reflexivity | ]. right. exists size. auto.
  - auto.
Qed.

Lemma ts_agrees_bind {A B} (mt : TS.M A) (mj : JS.M A) (ft : A -> TS.M B)
    (fj : A -> JS.M B) :
  ts_agrees mt mj -> (forall a, ts_agrees (ft a) (fj a)) ->
  ts_agrees (bind mt ft) (bind mj fj).
Proof.
  intros Hm Hf s. specialize (Hm s). unfold bind.
  destruct (mt s) as [[a | te] s1]; destruct (mj s) as [[b | je] s2];
    try contradiction; [ | exact Hm].
  destruct Hm as [<- <-]. exact (Hf a s1).
Qed.

Lemma ts_agrees_if {A} (c : bool) (mt1 mt2 : TS.M A) (mj1 mj2 : JS.M A) :
  ts_agrees mt1 mj1 -> ts_agrees mt2 mj2 ->
  ts_agrees (if c then mt1 else mt2) (if c then mj1 else mj2).
Proof. destruct c; auto. Qed.

Lemma ts_agrees_forRange {X} (bodyT bodyJ : nat -> X -> JS.M X) (k : nat) :
  (forall i x, ts_agrees (bodyT i x) (bodyJ i x)) ->
  forall i x, ts_agrees (forRange k i bodyT x) (forRange k i bodyJ x).
Proof.
  intros Hbody. induction k as [| k IH]; intros i x; simpl.
  - apply ts_agrees_ret.
  - apply ts_agrees_bind; [apply Hbody | intros x'; apply IH].
Qed.

(** One step of a proof that a TypeScript method agrees with the JavaScript
    method of the same shape. *)
Ltac ts_step :=
  lazymatch goal with
  | |- ts_agrees (bind _ _) (bind _ _) => apply ts_agrees_bind; [ | intros ? ]
  | |- ts_agrees (forRange _ _ _ _) (forRange _ _ _ _) =>
      apply ts_agrees_forRange; intros ? ?
  | |- ts_agrees (if _ then _ else _) (if _ then _ else _) => apply ts_agrees_if
  | |- ts_agrees (let '(_, _) := ?x in _) _ => destruct x
  | |- ts_agrees (ret _) (ret _) => apply ts_agrees_ret
  | |- ts_agrees (fail _) (fail _) => apply ts_agrees_fail
  | |- ts_agrees (JS.this _) (JS.this _) => apply ts_agrees_this
  | |- ts_agrees (JS.advance _) (JS.advance _) => apply ts_agrees_advance
  | |- ts_agrees (TS.checkBounds _) (JS._checkBounds _) => apply ts_agrees_checkBounds
  | |- ts_agrees ?mt ?mj => unfold mt, mj
  end.

Lemma ts_agrees_parse : ts_agrees TS.parse JS.parse.
Proof. cbv zeta. repeat (ts_step; cbv zeta). Qed.

(** X11: whatever [parse] of the JavaScript decoder does, returning a
    document or throwing, it leaves the view as it was, never moves the
    offset backwards, and never moves an offset that was within the view past
    its end: a parser made by the constructor stays within its bytes. *)
Theorem parse_keeps_offset_in_view :
  forall s r s',
    JS.parse s = (r, s') ->
    JS.view s' = JS.view s
    /\ (JS.offset s <= JS.offset s')%nat
    /\ ((JS.offset s <= length (JS.view s))%nat ->
        (JS.offset s' <= length (JS.view s))%nat).
Proof. exact keeps_bounds_parse. Qed.

Lemma parse_keeps_offset_in_view_witness :
  JS.view (snd (JS.parse {| JS.view := take 21 sample_capture; JS.offset := 0 |}))
  = take 21 sample_capture
  /\ (0 <= JS.offset
             (snd (JS.parse {| JS.view := take 21 sample_capture; JS.offset := 0 |})))%nat
  /\ ((0 <= length (take 21 sample_capture))%nat ->
      (JS.offset
         (snd (JS.parse {| JS.view := take 21 sample_capture; JS.offset := 0 |}))
       <= length (take 21 sample_capture))%nat).
Proof.
  exact (parse_keeps_offset_in_view
           {| JS.view := take 21 sample_capture; JS.offset := 0 |}
           (fst (JS.parse {| JS.view := take 21 sample_capture; JS.offset := 0 |}))
           (snd (JS.parse {| JS.view := take 21 sample_capture; JS.offset := 0 |}))
           (surjective_pairing _)).
Defined.

(** X12: on the same bytes the TypeScript decoder returns the document that
    the JavaScript decoder returns and stops at the same offset, and it throws
    exactly when the JavaScript decoder throws, at the same offset: both the
    version exception, with the same message, or both the end-of-input
    exception, where the JavaScript message names a size and the TypeScript
    message names the same size and the number of bytes left in the view at
    that offset, fewer than the size. *)
Theorem TS_parse_agrees_with_JS_parse (bytes : list byte) :
  match TS.parse {| JS.view := bytes; JS.offset := 0 |},
        JS.parse {| JS.view := bytes; JS.offset := 0 |} with
  | (Ok td, s1), (Ok jd, s2) => td = jd /\ s1 = s2
  | (Err te, s1), (Err je, s2) =>
      s1 = s2
      /\ ((exists v : Z,
             te = JS.Error ("Unsupported RTS version: " +:+ pretty v)
             /\ je = JS.Error ("Unsupported RTS version: " +:+ pretty v))
          \/ exists size left : nat,
               (JS.offset s1 + left = length bytes)%nat
               /\ (left < size)%nat
               /\ je = JS.Error
                         ("Unexpected EOF: expected " +:+ pretty size +:+ " bytes")
               /\ te = JS.Error
                         ("Unexpected EOF: expected " +:+ pretty size
                          +:+ " bytes, but only " +:+ pretty (Z.of_nat left)
                          +:+ " left."))
  | _, _ => False
  end.
Proof.
  pose proof (ts_agrees_parse {| JS.view := bytes; JS.offset := 0 |}) as H.
  pose proof (keeps_bounds_parse {| JS.view := bytes; JS.offset := 0 |}) as Hb.
  destruct (TS.parse _) as [[td | te] s1];
    destruct (JS.parse _) as [[jd | je] s2]; try contradiction; [exact H | ].
  destruct H as [<- Hf]. split; [reflexivity | ].
  destruct Hf as [Hver | (size & Hlt & Hje & Hte)]; [left; exact Hver | right].
  destruct (Hb _ _ eq_refl) as (Hview & _ & Hin).
  cbn [JS.view JS.offset] in Hview, Hin. rewrite Hview in Hlt, Hte.
  specialize (Hin ltac:(lia)).
  exists size, (length bytes - JS.offset s1)%nat.
  split; [lia | ]. split; [lia | ]. split; [exact Hje | ].
  rewrite Hte. unfold ts_eof_message. do 6 f_equal. lia.
Qed.

End TypeScript.
